(** * One Lloyd iteration of parallel naive k-means

    Shallow embedding of [ParallelNaiveKMeans::Iterate]
    (src/mlpack/methods/kmeans/parallel_naive_kmeans_impl.hpp) and the
    properties of it that the specification states.

    Numbers.  A C++ [double] is modelled as a real number or one of the
    IEEE special values (+infinity, -infinity, not-a-number); there is no
    signed zero.  The function is embedded twice.  [Iterate] computes in
    exact arithmetic (no rounding, no overflow), the special values
    following IEEE 754: it carries the properties of the control flow, of
    the counts and of the special values, and those that the specification
    states for exact arithmetic.  [Fp.Iterate] is the same function over an
    arithmetic that is a parameter, for the properties of the sums, the
    quotients and the squares as a machine computes them.  [size_t]
    counters are natural numbers with the wrap-around written out, for a
    width that is a parameter.

    Checks.  [Log::Assert] and the size and bounds checks of the matrix
    library are modelled as they act when they are compiled in: a failed
    check ends the call with an error and no result.

    Threads.  The OpenMP region is modelled by a schedule: the list, in the
    order the workers enter the critical section, of the point indices each
    worker executes, in the order it executes them. *)

From Stdlib Require Import List Arith Bool Lia NArith Reals Lra Permutation.
Import ListNotations.

(** ** Doubles *)

Inductive double : Type :=
| Fin (r : R)
| PInf
| NInf
| NaN.

Module Double.

(** [0.0] *)
Definition zero : double := Fin 0%R.

(** [a < b] on doubles: false as soon as one side is not-a-number. *)
Definition lt (a b : double) : bool :=
  match a, b with
  | NaN, _ | _, NaN => false
  | PInf, _ => false
  | _, NInf => false
  | Fin x, Fin y => if Rlt_dec x y then true else false
  | Fin _, PInf => true
  | NInf, Fin _ => true
  | NInf, PInf => true
  end.

(** [a + b] *)
Definition add (a b : double) : double :=
  match a, b with
  | NaN, _ | _, NaN => NaN
  | PInf, NInf | NInf, PInf => NaN
  | PInf, _ | _, PInf => PInf
  | NInf, _ | _, NInf => NInf
  | Fin x, Fin y => Fin (x + y)%R
  end.

(** [a - b] *)
Definition sub (a b : double) : double :=
  match a, b with
  | NaN, _ | _, NaN => NaN
  | PInf, PInf | NInf, NInf => NaN
  | PInf, _ | _, NInf => PInf
  | NInf, _ | _, PInf => NInf
  | Fin x, Fin y => Fin (x - y)%R
  end.

(** [std::abs(a)] *)
Definition abs (a : double) : double :=
  match a with
  | Fin x => Fin (Rabs x)
  | PInf | NInf => PInf
  | NaN => NaN
  end.

(** [std::pow(a, 2.0)] *)
Definition pow2 (a : double) : double :=
  match a with
  | Fin x => Fin (x * x)%R
  | PInf | NInf => PInf
  | NaN => NaN
  end.

(** [std::sqrt(a)] *)
Definition sqrt (a : double) : double :=
  match a with
  | Fin x => if Rlt_dec x 0 then NaN else Fin (R_sqrt.sqrt x)
  | PInf => PInf
  | NInf | NaN => NaN
  end.

(** [a / n] for a count [n] converted to double.  The code divides only
    under the guard [counts(i) != 0], so [n] is positive at every use. *)
Definition div_count (a : double) (n : nat) : double :=
  match a with
  | Fin x => Fin (x / INR n)%R
  | PInf => PInf
  | NInf => NInf
  | NaN => NaN
  end.

(** [a <= b] as a proposition, for statements only. *)
Definition le (a b : double) : Prop := lt b a = false /\ a <> NaN /\ b <> NaN.

End Double.

(** ** Failing operations *)

Inductive error : Type :=
| AssertFailed        (* Log::Assert(closestCluster != centroids.n_cols) *)
| IncompatibleDims    (* size check of += on vectors and matrices *)
| IndexOutOfBounds.   (* bounds check of col(i) and of operator()(i) *)

Inductive result (A : Type) : Type :=
| OK (a : A)
| Err (e : error).

Arguments OK {A} a.
Arguments Err {A} e.

Definition bind {A B : Type} (m : result A) (f : A -> result B) : result B :=
  match m with
  | OK a => f a
  | Err e => Err e
  end.

Notation "x <- m ;; k" := (bind m (fun x => k))
  (at level 61, m at next level, right associativity).

(** A [for] loop over [l] whose body may fail. *)
Fixpoint foldM {A S : Type} (f : S -> A -> result S) (l : list A) (s : S)
  : result S :=
  match l with
  | [] => OK s
  | x :: l' => s' <- f s x ;; foldM f l' s'
  end.

(** Modelled from the spec: [Log::Assert], which the sources call and do
    not define.  The specification calls its failure a fatal violation of
    an internal invariant that aborts the call entirely, with no partial
    output: a false condition ends the computation with [AssertFailed]. *)
Definition Log_Assert (condition : bool) : result unit :=
  if condition then OK tt else Err AssertFailed.

(** ** Vectors and matrices *)

Definition vec : Type := list double.

(** A matrix is stored by columns; [n_rows] is kept apart because a matrix
    with no column still has a row count. *)
Record mat : Type := Mat { n_rows : nat; cols : list vec }.

Definition n_cols (m : mat) : nat := length (cols m).

Fixpoint map2 {A B C : Type} (f : A -> B -> C) (la : list A) (lb : list B)
  : list C :=
  match la, lb with
  | a :: la', b :: lb' => f a b :: map2 f la' lb'
  | _, _ => []
  end.

(** [l(i) = f(l(i))] with the bounds check. *)
Fixpoint alter_at {A : Type} (f : A -> result A) (i : nat) (l : list A)
  : result (list A) :=
  match l, i with
  | [], _ => Err IndexOutOfBounds
  | x :: l', O => x' <- f x ;; OK (x' :: l')
  | x :: l', S i' => l'' <- alter_at f i' l' ;; OK (x :: l'')
  end.

(** [m.col(i)] *)
Definition col (m : mat) (i : nat) : result vec :=
  match nth_error (cols m) i with
  | Some v => OK v
  | None => Err IndexOutOfBounds
  end.

(** A matrix of [r] rows and [c] columns filled with zeros. *)
Definition zeros_mat (r c : nat) : mat :=
  Mat r (repeat (repeat Double.zero r) c).

(** [m.zeros(r, c)]: resize and fill; the previous content is dropped. *)
Definition mat_zeros (m : mat) (r c : nat) : mat := zeros_mat r c.

(** [v.zeros(c)] on a vector of counts. *)
Definition counts_zeros (v : list nat) (c : nat) : list nat := repeat 0 c.

(** [a += b] on vectors. *)
Definition vec_plus_assign (a b : vec) : result vec :=
  if length a =? length b then OK (map2 Double.add a b)
  else Err IncompatibleDims.

(** [a += b] on matrices. *)
Definition mat_plus_assign (a b : mat) : result mat :=
  if (n_rows a =? n_rows b) && (n_cols a =? n_cols b)
  then OK (Mat (n_rows a) (map2 (map2 Double.add) (cols a) (cols b)))
  else Err IncompatibleDims.

(** [a += b] on vectors of counts. *)
Definition counts_plus_assign (a b : list nat) : result (list nat) :=
  if length a =? length b then OK (map2 Nat.add a b) else Err IncompatibleDims.

(** [v /= n] on a vector. *)
Definition vec_div_assign (v : vec) (n : nat) : vec :=
  map (fun x => Double.div_count x n) v.

(** ** [size_t] *)

(** Addition and multiplication of [size_t] values of [bits] bits.  The
    width is that of the platform; it is a parameter of the model. *)
Definition size_add (bits a b : N) : N := ((a + b) mod 2 ^ bits)%N.
Definition size_mul (bits a b : N) : N := ((a * b) mod 2 ^ bits)%N.

(** ** The class *)

(** [MetricType]: a class with a method [Evaluate]. *)
Record MetricType : Type := { Evaluate : vec -> vec -> double }.

(** The members, as the constructor initialises them (the header that
    declares them is not among the sources). *)
Record ParallelNaiveKMeans : Type := {
  dataset : mat;
  metric : MetricType;
  distanceCalculations : N
}.

(** The constructor (lines 25-31). *)
Definition new_ParallelNaiveKMeans (dataset : mat) (metric : MetricType)
  : ParallelNaiveKMeans :=
  {| dataset := dataset; metric := metric; distanceCalculations := 0%N |}.

(** A schedule of the parallel loop: one list of point indices per worker. *)
Definition schedule : Type := list (list nat).

(** What the work-sharing loop guarantees: every iteration [0 .. n-1] is
    executed exactly once, by some worker. *)
Definition schedule_ok (s : schedule) (n : nat) : Prop :=
  Permutation (concat s) (seq 0 n).

Section Iterate.

Variable size_bits : N.
Variable self : ParallelNaiveKMeans.
Variable centroids : mat.

(** The scan over the centroids (lines 64-76): [cs] are the columns still
    to visit, [j] the index of the first of them. *)
Fixpoint scan (p : vec) (cs : list vec) (j : nat)
  (minDistance : double) (closestCluster : nat) : double * nat :=
  match cs with
  | [] => (minDistance, closestCluster)
  | c :: cs' =>
      let distance := Evaluate (metric self) p c in
      if Double.lt distance minDistance
      then scan p cs' (S j) distance j
      else scan p cs' (S j) minDistance closestCluster
  end.

Definition closest_cluster (p : vec) : nat :=
  snd (scan p (cols centroids) 0 PInf (n_cols centroids)).

(** The body of the parallel loop for one point (lines 62-83). *)
Definition assign_point (local : mat * list nat) (p : vec)
  : result (mat * list nat) :=
  let closestCluster := closest_cluster p in
  _ <- Log_Assert (negb (closestCluster =? n_cols centroids)) ;;
  cs <- alter_at (fun c => vec_plus_assign c p) closestCluster
          (cols (fst local)) ;;
  cnt <- alter_at (fun n => OK (S n)) closestCluster (snd local) ;;
  OK (Mat (n_rows (fst local)) cs, cnt).

(** One worker (lines 47-83): private accumulators, then its share of the
    loop. *)
Definition worker (chunk : list nat) : result (mat * list nat) :=
  foldM (fun local i => p <- col (dataset self) i ;; assign_point local p)
        chunk
        (zeros_mat (n_rows centroids) (n_cols centroids),
         repeat 0 (n_cols centroids)).

(** The critical section (lines 85-89). *)
Definition merge (shared local : mat * list nat) : result (mat * list nat) :=
  nc <- mat_plus_assign (fst shared) (fst local) ;;
  cnt <- counts_plus_assign (snd shared) (snd local) ;;
  OK (nc, cnt).

(** The parallel region (lines 45-90). *)
Definition parallel_region (s : schedule) (shared : mat * list nat)
  : result (mat * list nat) :=
  foldM (fun shared chunk => local <- worker chunk ;; merge shared local)
        s shared.

(** Normalisation (lines 92-94): the body for the index [i], then the
    loop. *)
Definition normalize_step (counts : list nat) (nc : mat) (i : nat)
  : result mat :=
  match nth_error counts i with
  | None => Err IndexOutOfBounds
  | Some c =>
      if c =? 0 then OK nc
      else
        cs <- alter_at (fun v => OK (vec_div_assign v c)) i (cols nc) ;;
        OK (Mat (n_rows nc) cs)
  end.

Definition normalize (counts : list nat) (newCentroids : mat) : result mat :=
  foldM (normalize_step counts) (seq 0 (n_cols centroids)) newCentroids.

(** The distortion loop (lines 99-104): the body for the index [i], then
    the loop. *)
Definition distortion_step (newCentroids : mat) (cNorm : double) (i : nat)
  : result double :=
  a <- col centroids i ;;
  b <- col newCentroids i ;;
  OK (Double.add cNorm (Double.pow2 (Evaluate (metric self) a b))).

Definition distortion_sum (newCentroids : mat) : result double :=
  foldM (distortion_step newCentroids) (seq 0 (n_cols centroids)) Double.zero.

Record IterateResult : Type := {
  r_self : ParallelNaiveKMeans;
  r_newCentroids : mat;
  r_counts : list nat;
  r_distortion : double
}.

(** [Iterate] (lines 34-108).  [newCentroids] and [counts] are the buffers
    the caller passes by reference. *)
Definition Iterate (newCentroids : mat) (counts : list nat) (s : schedule)
  : result IterateResult :=
  let newCentroids :=
    mat_zeros newCentroids (n_rows centroids) (n_cols centroids) in
  let counts := counts_zeros counts (n_cols centroids) in
  acc <- parallel_region s (newCentroids, counts) ;;
  newCentroids <- normalize (snd acc) (fst acc) ;;
  let dc := size_add size_bits (distanceCalculations self)
              (size_mul size_bits (N.of_nat (n_cols centroids))
                        (N.of_nat (n_cols (dataset self)))) in
  cNorm <- distortion_sum newCentroids ;;
  let dc := size_add size_bits dc (N.of_nat (n_cols centroids)) in
  OK {| r_self := {| dataset := dataset self; metric := metric self;
                     distanceCalculations := dc |};
        r_newCentroids := newCentroids;
        r_counts := snd acc;
        r_distortion := Double.sqrt cNorm |}.

End Iterate.

(** * The vocabulary of the statements *)

(** The sum of the vectors [ps], from the zero vector of [d] rows, in the
    order of the list. *)
Definition vsum (d : nat) (ps : list vec) : vec :=
  fold_left (map2 Double.add) ps (repeat Double.zero d).

(** The arithmetic mean of [ps]: the component-wise sum divided by the
    number of vectors. *)
Definition vmean (d : nat) (ps : list vec) : vec :=
  vec_div_assign (vsum d ps) (length ps).

(** The errors the loop body raises: the assertion and the size check of
    the addition; the bounds checks never fire. *)
Definition loop_error (e : error) : Prop :=
  e = AssertFailed \/ e = IncompatibleDims.

(** The normalised column: the sum [g i] of a cluster, divided by the
    number [c i] of its points when there is one. *)
Definition normalized (g : nat -> vec) (c : nat -> nat) (i : nat) : vec :=
  if c i =? 0 then g i else vec_div_assign (g i) (c i).

(** The values the running sum of squares takes: no negative number and
    no -infinity. *)
Definition sum_ok (a : double) : Prop :=
  match a with
  | Fin r => (0 <= r)%R
  | NInf => False
  | PInf | NaN => True
  end.

(** The static schedule: contiguous chunks of the given sizes, one per
    worker, from the index [start] on. *)
Fixpoint chunks (start : nat) (sizes : list nat) : schedule :=
  match sizes with
  | [] => []
  | n :: sizes' => seq start n :: chunks (start + n) sizes'
  end.

Section Specification.

Variable size_bits : N.
Variable self : ParallelNaiveKMeans.
Variable centroids : mat.

(** The point [p] goes to the cluster [i]. *)
Definition assigned (i : nat) (p : vec) : bool :=
  closest_cluster self centroids p =? i.

(** The points of [ps] that go to the cluster [i], in the order of [ps]. *)
Definition cluster_points (i : nat) (ps : list vec) : list vec :=
  filter (assigned i) ps.

(** A point passes the two checks of the loop body: some centroid is
    selected, and the point has as many rows as the accumulators. *)
Definition accepted (p : vec) : bool :=
  (closest_cluster self centroids p <? n_cols centroids) &&
  (length p =? n_rows centroids).

(** The accumulators that hold the points [ps]: per cluster, the sum of
    its points and their number. *)
Definition acc_of (ps : list vec) : mat * list nat :=
  (Mat (n_rows centroids)
       (map (fun i => vsum (n_rows centroids) (cluster_points i ps))
            (seq 0 (n_cols centroids))),
   map (fun i => length (cluster_points i ps)) (seq 0 (n_cols centroids))).

(** The point of index [i], for the indices of a schedule. *)
Definition point (i : nat) : vec := nth i (cols (dataset self)) ([] : vec).

(** The sum of the squared displacements of the columns [h]. *)
Definition squared_displacements (h : nat -> vec) : double :=
  fold_left
    (fun cNorm i =>
       Double.add cNorm
         (Double.pow2
            (Evaluate (metric self) (nth i (cols centroids) ([] : vec))
                      (h i))))
    (seq 0 (n_cols centroids)) Double.zero.

(** The new centroid of the cluster [i]. *)
Definition new_centroid (i : nat) : vec :=
  normalized
    (fun i => vsum (n_rows centroids) (cluster_points i (cols (dataset self))))
    (fun i => length (cluster_points i (cols (dataset self))))
    i.

(** What [Iterate] returns when it returns. *)
Definition expected : IterateResult :=
  {| r_self :=
       {| dataset := dataset self; metric := metric self;
          distanceCalculations :=
            size_add size_bits
              (size_add size_bits (distanceCalculations self)
                 (size_mul size_bits (N.of_nat (n_cols centroids))
                           (N.of_nat (n_cols (dataset self)))))
              (N.of_nat (n_cols centroids)) |};
     r_newCentroids :=
       Mat (n_rows centroids) (map new_centroid (seq 0 (n_cols centroids)));
     r_counts :=
       map (fun i => length (cluster_points i (cols (dataset self))))
           (seq 0 (n_cols centroids));
     r_distortion := Double.sqrt (squared_displacements new_centroid) |}.

(** The iteration as one sequential scan of the points: no worker, no
    private accumulator and no merge; every point is added to the shared
    accumulators in the order of the dataset. *)
Definition sequential_scan : result (mat * list nat) :=
  foldM (assign_point self centroids) (cols (dataset self))
        (zeros_mat (n_rows centroids) (n_cols centroids),
         repeat 0 (n_cols centroids)).

Definition sequential_Iterate : result IterateResult :=
  acc <- sequential_scan ;;
  newCentroids <- normalize centroids (snd acc) (fst acc) ;;
  cNorm <- distortion_sum self centroids newCentroids ;;
  OK {| r_self :=
          {| dataset := dataset self; metric := metric self;
             distanceCalculations :=
               size_add size_bits
                 (size_add size_bits (distanceCalculations self)
                    (size_mul size_bits (N.of_nat (n_cols centroids))
                              (N.of_nat (n_cols (dataset self)))))
                 (N.of_nat (n_cols centroids)) |};
        r_newCentroids := newCentroids;
        r_counts := snd acc;
        r_distortion := Double.sqrt cNorm |}.

End Specification.

(** * The arithmetic of the machine

    [Iterate] above computes with exact sums, quotients, squares and square
    roots.  A machine rounds each of them, and the results overflow and
    underflow.  [Fp.Iterate] is the same function over an arithmetic that is
    a parameter: the four operations on doubles that the code performs and a
    machine rounds.  The comparison [<] is exact on a machine and stays
    [Double.lt]; the metric is a parameter of its own.  At the arithmetic
    [Fp.exact], [Fp.Iterate] is [Iterate]. *)

Module Fp.

Record arithmetic : Type := {
  add : double -> double -> double;     (* a + b, in += *)
  div_count : double -> nat -> double;  (* a / n, in /= by a count *)
  pow2 : double -> double;              (* std::pow(a, 2.0) *)
  sqrt : double -> double               (* std::sqrt(a) *)
}.

(** The arithmetic without rounding and without bounds. *)
Definition exact : arithmetic :=
  {| add := Double.add; div_count := Double.div_count;
     pow2 := Double.pow2; sqrt := Double.sqrt |}.

Section Arithmetic.

Variable ar : arithmetic.

(** [a += b] on vectors. *)
Definition vec_plus_assign (a b : vec) : result vec :=
  if length a =? length b then OK (map2 (add ar) a b)
  else Err IncompatibleDims.

(** [a += b] on matrices. *)
Definition mat_plus_assign (a b : mat) : result mat :=
  if (n_rows a =? n_rows b) && (n_cols a =? n_cols b)
  then OK (Mat (n_rows a) (map2 (map2 (add ar)) (cols a) (cols b)))
  else Err IncompatibleDims.

(** [v /= n] on a vector. *)
Definition vec_div_assign (v : vec) (n : nat) : vec :=
  map (fun x => div_count ar x n) v.

Section Iterate.

Variable size_bits : N.
Variable self : ParallelNaiveKMeans.
Variable centroids : mat.

(** The body of the parallel loop for one point (lines 62-83); the scan
    compares and does not compute. *)
Definition assign_point (local : mat * list nat) (p : vec)
  : result (mat * list nat) :=
  let closestCluster := closest_cluster self centroids p in
  _ <- Log_Assert (negb (closestCluster =? n_cols centroids)) ;;
  cs <- alter_at (fun c => vec_plus_assign c p) closestCluster
          (cols (fst local)) ;;
  cnt <- alter_at (fun n => OK (S n)) closestCluster (snd local) ;;
  OK (Mat (n_rows (fst local)) cs, cnt).

(** One worker (lines 47-83). *)
Definition worker (chunk : list nat) : result (mat * list nat) :=
  foldM (fun local i => p <- col (dataset self) i ;; assign_point local p)
        chunk
        (zeros_mat (n_rows centroids) (n_cols centroids),
         repeat 0 (n_cols centroids)).

(** The critical section (lines 85-89). *)
Definition merge (shared local : mat * list nat) : result (mat * list nat) :=
  nc <- mat_plus_assign (fst shared) (fst local) ;;
  cnt <- counts_plus_assign (snd shared) (snd local) ;;
  OK (nc, cnt).

(** The parallel region (lines 45-90). *)
Definition parallel_region (s : schedule) (shared : mat * list nat)
  : result (mat * list nat) :=
  foldM (fun shared chunk => local <- worker chunk ;; merge shared local)
        s shared.

(** Normalisation (lines 92-94). *)
Definition normalize_step (counts : list nat) (nc : mat) (i : nat)
  : result mat :=
  match nth_error counts i with
  | None => Err IndexOutOfBounds
  | Some c =>
      if c =? 0 then OK nc
      else
        cs <- alter_at (fun v => OK (vec_div_assign v c)) i (cols nc) ;;
        OK (Mat (n_rows nc) cs)
  end.

Definition normalize (counts : list nat) (newCentroids : mat) : result mat :=
  foldM (normalize_step counts) (seq 0 (n_cols centroids)) newCentroids.

(** The distortion loop (lines 99-104). *)
Definition distortion_step (newCentroids : mat) (cNorm : double) (i : nat)
  : result double :=
  a <- col centroids i ;;
  b <- col newCentroids i ;;
  OK (add ar cNorm (pow2 ar (Evaluate (metric self) a b))).

Definition distortion_sum (newCentroids : mat) : result double :=
  foldM (distortion_step newCentroids) (seq 0 (n_cols centroids)) Double.zero.

(** [Iterate] (lines 34-108). *)
Definition Iterate (newCentroids : mat) (counts : list nat) (s : schedule)
  : result IterateResult :=
  let newCentroids :=
    mat_zeros newCentroids (n_rows centroids) (n_cols centroids) in
  let counts := counts_zeros counts (n_cols centroids) in
  acc <- parallel_region s (newCentroids, counts) ;;
  newCentroids <- normalize (snd acc) (fst acc) ;;
  let dc := size_add size_bits (distanceCalculations self)
              (size_mul size_bits (N.of_nat (n_cols centroids))
                        (N.of_nat (n_cols (dataset self)))) in
  cNorm <- distortion_sum newCentroids ;;
  let dc := size_add size_bits dc (N.of_nat (n_cols centroids)) in
  OK {| r_self := {| dataset := dataset self; metric := metric self;
                     distanceCalculations := dc |};
        r_newCentroids := newCentroids;
        r_counts := snd acc;
        r_distortion := sqrt ar cNorm |}.

End Iterate.

(** ** The vocabulary of the statements *)

(** The sum a worker holds for the vectors [ps]: they are added one by
    one, in the order of the list, to the zero vector of [d] rows. *)
Definition vsum (d : nat) (ps : list vec) : vec :=
  fold_left (map2 (add ar)) ps (repeat Double.zero d).

(** The sum the critical section leaves: from the zero vector, the sum of
    each worker is added, in the order the workers enter. *)
Definition merged (d : nat) (parts : list (list vec)) : vec :=
  fold_left (fun shared part => map2 (add ar) shared (vsum d part)) parts
            (repeat Double.zero d).

Definition normalized (g : nat -> vec) (c : nat -> nat) (i : nat) : vec :=
  if c i =? 0 then g i else vec_div_assign (g i) (c i).

Section Specification.

Variable size_bits : N.
Variable self : ParallelNaiveKMeans.
Variable centroids : mat.

(** The accumulators of a worker that has executed the points [ps]. *)
Definition acc_of (ps : list vec) : mat * list nat :=
  (Mat (n_rows centroids)
       (map (fun i => vsum (n_rows centroids)
                        (cluster_points self centroids i ps))
            (seq 0 (n_cols centroids))),
   map (fun i => length (cluster_points self centroids i ps))
       (seq 0 (n_cols centroids))).

(** The shared accumulators after the workers that executed the lists of
    points [parts] have left the critical section. *)
Definition shared_of (parts : list (list vec)) : mat * list nat :=
  (Mat (n_rows centroids)
       (map (fun i => merged (n_rows centroids)
                        (map (cluster_points self centroids i) parts))
            (seq 0 (n_cols centroids))),
   map (fun i => length (cluster_points self centroids i (concat parts)))
       (seq 0 (n_cols centroids))).

(** The points of the cluster [i] that each worker of the schedule [s]
    executes. *)
Definition cluster_parts (s : schedule) (i : nat) : list (list vec) :=
  map (fun chunk => cluster_points self centroids i (map (point self) chunk))
      s.

(** The new centroid of the cluster [i] under the schedule [s]. *)
Definition new_centroid (s : schedule) (i : nat) : vec :=
  normalized
    (fun i => merged (n_rows centroids) (cluster_parts s i))
    (fun i => length (cluster_points self centroids i (cols (dataset self))))
    i.

(** The sum of the squared displacements of the columns [h]. *)
Definition squared_displacements (h : nat -> vec) : double :=
  fold_left
    (fun cNorm i =>
       add ar cNorm
         (pow2 ar
            (Evaluate (metric self) (nth i (cols centroids) ([] : vec))
                      (h i))))
    (seq 0 (n_cols centroids)) Double.zero.

(** What [Iterate] returns, when it returns, under the schedule [s]. *)
Definition expected (s : schedule) : IterateResult :=
  {| r_self :=
       {| dataset := dataset self; metric := metric self;
          distanceCalculations :=
            size_add size_bits
              (size_add size_bits (distanceCalculations self)
                 (size_mul size_bits (N.of_nat (n_cols centroids))
                           (N.of_nat (n_cols (dataset self)))))
              (N.of_nat (n_cols centroids)) |};
     r_newCentroids :=
       Mat (n_rows centroids)
           (map (new_centroid s) (seq 0 (n_cols centroids)));
     r_counts :=
       map (fun i => length (cluster_points self centroids i
                               (cols (dataset self))))
           (seq 0 (n_cols centroids));
     r_distortion := sqrt ar (squared_displacements (new_centroid s)) |}.

End Specification.

(** ** Laws *)

(** An addition that does not depend on the order and the grouping of its
    operands.  The exact addition is one; the addition of a machine is
    commutative and is not associative. *)
Record additive : Prop := {
  plus_assoc : forall a b c, add ar (add ar a b) c = add ar a (add ar b c);
  plus_comm : forall a b, add ar a b = add ar b a;
  plus_zero_l : forall a, add ar Double.zero a = a
}.

(** What the sum of squares and its root satisfy in every IEEE 754
    arithmetic, whatever the rounding.  On the values a sum of squares
    takes (no negative number, no -infinity): a sum is such a value, is 0
    only when both terms are, and is not-a-number only when a term is; a
    square is such a value, is 0 at 0, and is not-a-number only at
    not-a-number; a root is 0 exactly at 0, is not-a-number only at
    not-a-number, and is never below 0.  That a square is 0 only at 0 is
    not among them: squares underflow. *)
Record ieee : Prop := {
  plus_ok : forall a b, sum_ok a -> sum_ok b -> sum_ok (add ar a b);
  plus_zero : forall a b, sum_ok a -> sum_ok b ->
    (add ar a b = Double.zero <-> a = Double.zero /\ b = Double.zero);
  plus_nan : forall a b, sum_ok a -> sum_ok b ->
    add ar a b = NaN -> a = NaN \/ b = NaN;
  pow2_ok : forall x, sum_ok (pow2 ar x);
  pow2_zero : pow2 ar Double.zero = Double.zero;
  pow2_nan : forall x, pow2 ar x = NaN -> x = NaN;
  sqrt_zero : forall a, sum_ok a ->
    (sqrt ar a = Double.zero <-> a = Double.zero);
  sqrt_nan : forall a, sum_ok a -> sqrt ar a = NaN -> a = NaN;
  sqrt_sign : forall a, Double.lt (sqrt ar a) Double.zero = false
}.

End Arithmetic.

(** ** The range of binary64 *)

(** The double 2^1023 and the real 2^-600, which is a double too. *)
Definition huge : R := 2 ^ 1023.
Definition tiny : R := / 2 ^ 600.

(** A result of magnitude 2^1024 or more is an infinity. *)
Definition overflow (x : R) : double :=
  if Rle_dec (2 * huge) x then PInf
  else if Rle_dec x (- (2 * huge)) then NInf
  else Fin x.

(** Besides, a result of magnitude below 2^-1075, half the least positive
    double, is 0. *)
Definition underflow (x : R) : double :=
  match overflow x with
  | Fin y => if Rlt_dec (Rabs y) (/ 2 ^ 1075) then Fin 0 else Fin y
  | d => d
  end.

(** The arithmetic of binary64 without the rounding of the mantissa: the
    operations are exact as long as the result is in range, and overflow
    and underflow as IEEE 754 has them (a sum does not underflow).  On
    operands whose exact result is a double, is of magnitude 2^1024 or
    more, or is of magnitude below 2^-1075, this is the result of the
    machine.  A count 0 is the divisor +0.0. *)
Definition binary64 : arithmetic :=
  {| add := fun a b =>
       match Double.add a b with
       | Fin x => overflow x
       | d => d
       end;
     div_count := fun a n =>
       match a, n with
       | Fin x, O =>
           if Rlt_dec 0 x then PInf else if Rlt_dec x 0 then NInf else NaN
       | Fin x, S _ => underflow (x / INR n)
       | d, _ => d
       end;
     pow2 := fun a =>
       match Double.pow2 a with
       | Fin x => underflow x
       | d => d
       end;
     sqrt := Double.sqrt |}.

End Fp.

(** * Concrete inputs *)

Module Scenario.

(** The Manhattan distance, [accu(abs(a - b))]. *)
Definition manhattan : MetricType :=
  {| Evaluate := fun a b =>
       fold_left Double.add
         (map2 (fun x y => Double.abs (Double.sub x y)) a b) Double.zero |}.

(** A distance that looks at the first coordinate only. *)
Definition first_coordinate : MetricType :=
  {| Evaluate := fun a b =>
       match a, b with
       | x :: _, y :: _ => Double.abs (Double.sub x y)
       | _, _ => Double.zero
       end |}.

(** A distance that has overflowed on every pair. *)
Definition overflowed : MetricType := {| Evaluate := fun _ _ => PInf |}.

(** A point of one row. *)
Definition v1 (x : R) : vec := [Fin x].

(** Dataset {0, 1, 10, 11} and centroids {0, 10}. *)
Definition dataset1 : mat := Mat 1 [v1 0; v1 1; v1 10; v1 11].
Definition centroids1 : mat := Mat 1 [v1 0; v1 10].
Definition kmeans1 : ParallelNaiveKMeans :=
  new_ParallelNaiveKMeans dataset1 manhattan.

(** Two workers, two points each. *)
Definition two_workers : schedule := chunks 0 [2; 2].

(** Dataset {0, 1, 2, 3} and centroids {0, 1000}: the second cluster stays
    empty. *)
Definition dataset2 : mat := Mat 1 [v1 0; v1 1; v1 2; v1 3].
Definition centroids2 : mat := Mat 1 [v1 0; v1 1000].
Definition kmeans2 : ParallelNaiveKMeans :=
  new_ParallelNaiveKMeans dataset2 manhattan.

(** The point 5, at the same distance of the centroids 0 and 10. *)
Definition midpoint : vec := v1 5.

(** One point (0, 1) and one centroid (0, 0), under the distance on the
    first coordinate. *)
Definition dataset3 : mat := Mat 2 [[Fin 0; Fin 1]].
Definition centroids3 : mat := Mat 2 [[Fin 0; Fin 0]].
Definition kmeans3 : ParallelNaiveKMeans :=
  new_ParallelNaiveKMeans dataset3 first_coordinate.

(** One point, and a matrix of centroids without a column. *)
Definition dataset4 : mat := Mat 1 [v1 0].
Definition no_centroid : mat := Mat 1 [].
Definition kmeans4 : ParallelNaiveKMeans :=
  new_ParallelNaiveKMeans dataset4 manhattan.

(** No point and no centroid. *)
Definition kmeans_empty : ParallelNaiveKMeans :=
  new_ParallelNaiveKMeans (Mat 1 []) manhattan.

(** One point and one centroid of two rows. *)
Definition centroids_2rows : mat := Mat 2 [[Fin 0; Fin 0]].

(** An object whose counter has reached the largest [size_t] of 64
    bits. *)
Definition kmeans_full : ParallelNaiveKMeans :=
  {| dataset := dataset4; metric := manhattan;
     distanceCalculations := (2 ^ 64 - 1)%N |}.
Definition centroids4 : mat := Mat 1 [v1 0].

(** One point and one centroid under the overflowed distance, and one
    point with an infinite coordinate under the Manhattan distance. *)
Definition kmeans_overflowed : ParallelNaiveKMeans :=
  new_ParallelNaiveKMeans dataset4 overflowed.
Definition dataset_inf : mat := Mat 1 [[PInf]].
Definition kmeans_inf : ParallelNaiveKMeans :=
  new_ParallelNaiveKMeans dataset_inf manhattan.

(** What the iterations above return. *)
Definition result1 : IterateResult :=
  {| r_self := {| dataset := dataset1; metric := manhattan;
                  distanceCalculations := 10 |};
     r_newCentroids := Mat 1 [v1 (1 / 2); v1 (21 / 2)];
     r_counts := [2; 2];
     r_distortion := Fin (sqrt (1 / 2)) |}.

Definition result2 : IterateResult :=
  {| r_self := {| dataset := dataset2; metric := manhattan;
                  distanceCalculations := 10 |};
     r_newCentroids := Mat 1 [v1 (3 / 2); v1 0];
     r_counts := [4; 0];
     r_distortion := Fin (sqrt (4000009 / 4)) |}.

Definition result3 : IterateResult :=
  {| r_self := {| dataset := dataset3; metric := first_coordinate;
                  distanceCalculations := 2 |};
     r_newCentroids := Mat 2 [[Fin 0; Fin 1]];
     r_counts := [1];
     r_distortion := Fin (sqrt 0) |}.

Definition result_empty : IterateResult :=
  {| r_self := kmeans_empty;
     r_newCentroids := Mat 1 [];
     r_counts := [];
     r_distortion := Fin (sqrt 0) |}.

Definition result_full : IterateResult :=
  {| r_self := {| dataset := dataset4; metric := manhattan;
                  distanceCalculations := 1 |};
     r_newCentroids := Mat 1 [v1 0];
     r_counts := [1];
     r_distortion := Fin (sqrt 0) |}.

(** The buffers a caller passes. *)
Definition buffer : mat := Mat 0 [].
Definition stale_buffer : mat := Mat 3 [[Fin 7; NaN; PInf]].

End Scenario.

(** A finite double between [lo] and [hi]. *)
Definition in_range (lo hi : R) (x : double) : Prop :=
  match x with
  | Fin r => (lo <= r <= hi)%R
  | PInf | NInf | NaN => False
  end.

(** A sequence of calls of [Iterate] on one object, as the caller's loop
    makes them: each call has its centroids, its two buffers and the
    schedule the run time picks; the object a call leaves is the object of
    the next call.  A call that fails ends the sequence. *)
Record call : Type := {
  c_centroids : mat;
  c_newCentroids : mat;
  c_counts : list nat;
  c_schedule : schedule
}.

Definition Iterate_calls (size_bits : N) (calls : list call)
  (self : ParallelNaiveKMeans) : result ParallelNaiveKMeans :=
  foldM (fun self c =>
           r <- Iterate size_bits self (c_centroids c) (c_newCentroids c)
                        (c_counts c) (c_schedule c) ;;
           OK (r_self r))
        calls self.

(** The distance evaluations of a sequence of calls on [n] points. *)
Definition calls_cost (n : N) (calls : list call) : N :=
  fold_right (fun c t =>
                let K := N.of_nat (n_cols (c_centroids c)) in
                K * n + K + t)%N 0%N calls.

(** Inputs at the edges. *)
Module Edge.

(** Centroids {0, 0}: the second one duplicates the first. *)
Definition duplicate : mat := Mat 1 [Scenario.v1 0; Scenario.v1 0].

(** Centroids {0, NaN} and {0, +infinity}. *)
Definition nan_centroids : mat := Mat 1 [Scenario.v1 0; [NaN]].
Definition inf_centroids : mat := Mat 1 [Scenario.v1 0; [PInf]].

(** The dataset {11, 0, 10, 1}: the points of [Scenario.dataset1] in
    another order. *)
Definition permuted : mat :=
  Mat 1 [Scenario.v1 11; Scenario.v1 0; Scenario.v1 10; Scenario.v1 1].
Definition kmeans_permuted : ParallelNaiveKMeans :=
  new_ParallelNaiveKMeans permuted Scenario.manhattan.

(** The object of [Scenario.kmeans1] after earlier calls. *)
Definition kmeans_counted : ParallelNaiveKMeans :=
  {| dataset := Scenario.dataset1; metric := Scenario.manhattan;
     distanceCalculations := 12345 |}.

(** A distance that is the Manhattan distance unless its second argument
    is the point 1 or the point 11, where it is not a number. *)
Definition skewed : MetricType :=
  {| Evaluate := fun a b =>
       match b with
       | [Fin y] =>
           if Req_dec_T y 1 then NaN
           else if Req_dec_T y 11 then NaN
           else Evaluate Scenario.manhattan a b
       | _ => Evaluate Scenario.manhattan a b
       end |}.
Definition kmeans_skewed : ParallelNaiveKMeans :=
  new_ParallelNaiveKMeans Scenario.dataset1 skewed.

(** Two points 2^1023, and one point 2^-600. *)
Definition dataset_huge : mat := Mat 1 [[Fin Fp.huge]; [Fin Fp.huge]].
Definition kmeans_huge : ParallelNaiveKMeans :=
  new_ParallelNaiveKMeans dataset_huge Scenario.manhattan.
Definition dataset_tiny : mat := Mat 1 [[Fin Fp.tiny]].
Definition kmeans_tiny : ParallelNaiveKMeans :=
  new_ParallelNaiveKMeans dataset_tiny Scenario.manhattan.

(** What the iterations on these two datasets return in the range of
    binary64, with one centroid 0. *)
Definition result_huge : IterateResult :=
  {| r_self := {| dataset := dataset_huge; metric := Scenario.manhattan;
                  distanceCalculations := 3 |};
     r_newCentroids := Mat 1 [[PInf]];
     r_counts := [2];
     r_distortion := PInf |}.
Definition result_tiny : IterateResult :=
  {| r_self := {| dataset := dataset_tiny; metric := Scenario.manhattan;
                  distanceCalculations := 2 |};
     r_newCentroids := Mat 1 [[Fin Fp.tiny]];
     r_counts := [1];
     r_distortion := Fin 0 |}.

(** Two calls on the centroids {0, 10}, on four points. *)
Definition two_calls : list call :=
  let c := {| c_centroids := Scenario.centroids1;
              c_newCentroids := Scenario.buffer;
              c_counts := [];
              c_schedule := Scenario.two_workers |} in
  [c; c].

End Edge.

(** * Facts *)

(** ** Doubles *)

Module DoubleFacts.

Lemma add_comm (a b : double) : Double.add a b = Double.add b a.
Proof. destruct a, b; simpl; trivial. f_equal; ring. Qed.

Lemma add_assoc (a b c : double) :
  Double.add (Double.add a b) c = Double.add a (Double.add b c).
Proof. destruct a, b, c; simpl; trivial. f_equal; ring. Qed.

Lemma add_zero_l (a : double) : Double.add Double.zero a = a.
Proof. destruct a; simpl; trivial. f_equal; ring. Qed.

Lemma lt_irrefl (a : double) : Double.lt a a = false.
Proof.
  destruct a; simpl; trivial.
  destruct (Rlt_dec r r) as [H | H]; trivial. lra.
Qed.

Lemma lt_trans (a b c : double) :
  Double.lt a b = true -> Double.lt b c = true -> Double.lt a c = true.
Proof.
  destruct a as [x| | |], b as [y| | |], c as [z| | |]; simpl;
    try discriminate; trivial.
  destruct (Rlt_dec x y), (Rlt_dec y z), (Rlt_dec x z);
    try discriminate; trivial; lra.
Qed.

Lemma lt_asym (a b : double) :
  Double.lt a b = true -> Double.lt b a = false.
Proof.
  destruct a as [x| | |], b as [y| | |]; simpl; try discriminate; trivial.
  destruct (Rlt_dec x y), (Rlt_dec y x); try discriminate; trivial; lra.
Qed.

(** What compares below +infinity: every value but +infinity and NaN. *)
Lemma lt_PInf (a : double) :
  Double.lt a PInf = true <-> a <> PInf /\ a <> NaN.
Proof.
  destruct a; simpl; split; intros H; try discriminate; trivial;
    try (split; discriminate); destruct H; congruence.
Qed.

End DoubleFacts.

(** ** The error monad and lists *)

Lemma foldM_app {A S : Type} (f : S -> A -> result S) (l1 l2 : list A) (s : S) :
  foldM f (l1 ++ l2) s = (s' <- foldM f l1 s ;; foldM f l2 s').
Proof.
  revert s; induction l1 as [|x l1 IH]; intros s; simpl; trivial.
  destruct (f s x); simpl; auto.
Qed.

(** A loop whose body never fails is a plain fold. *)
Lemma foldM_pure {A S : Type} (f : S -> A -> result S) (g : S -> A -> S)
  (l : list A) :
  (forall s x, In x l -> f s x = OK (g s x)) ->
  forall s, foldM f l s = OK (fold_left g l s).
Proof.
  induction l as [|x l IH]; intros H s; simpl; trivial.
  rewrite H by (left; trivial). simpl. apply IH.
  intros; apply H; right; trivial.
Qed.

Lemma map2_length {A B C : Type} (f : A -> B -> C) (la : list A) (lb : list B) :
  length la = length lb -> length (map2 f la lb) = length la.
Proof.
  revert lb; induction la as [|a la IH]; intros [|b lb] H; simpl in *;
    try discriminate; trivial.
  f_equal; apply IH; lia.
Qed.

Lemma map2_map_seq {A B C : Type} (f : A -> B -> C) (g : nat -> A)
  (h : nat -> B) (s n : nat) :
  map2 f (map g (seq s n)) (map h (seq s n)) =
  map (fun i => f (g i) (h i)) (seq s n).
Proof.
  revert s; induction n as [|n IH]; intros s; simpl; trivial.
  f_equal; apply IH.
Qed.

Lemma map_const_seq {A : Type} (a : A) (s n : nat) :
  map (fun _ => a) (seq s n) = repeat a n.
Proof.
  revert s; induction n as [|n IH]; intros s; simpl; trivial.
  f_equal; apply IH.
Qed.

Lemma nth_error_map_seq {A : Type} (g : nat -> A) (n i : nat) :
  i < n -> nth_error (map g (seq 0 n)) i = Some (g i).
Proof.
  intros H. rewrite nth_error_map, nth_error_seq.
  destruct (Nat.ltb_spec i n); [reflexivity | lia].
Qed.

(** Updating the element of index [c] of a list given by its elements. *)
Lemma alter_at_map_seq {A : Type} (f : A -> result A) (g : nat -> A) (y : A)
  (n c s : nat) :
  c < n -> f (g (s + c)) = OK y ->
  alter_at f c (map g (seq s n)) =
  OK (map (fun j => if j =? s + c then y else g j) (seq s n)).
Proof.
  revert c s; induction n as [|n IH]; intros c s Hc Hf; [lia|].
  destruct c as [|c]; simpl.
  - rewrite Nat.add_0_r in *. rewrite Hf. simpl.
    rewrite Nat.eqb_refl. do 2 f_equal.
    apply map_ext_in. intros j Hj. apply in_seq in Hj.
    destruct (Nat.eqb_spec j s); [lia | trivial].
  - rewrite (IH c (S s)); [|lia|].
    + simpl. destruct (Nat.eqb_spec s (s + S c)); [lia|].
      do 2 f_equal. apply map_ext. intros j.
      replace (S (s + c)) with (s + S c) by lia. trivial.
    + replace (S s + c) with (s + S c) by lia. trivial.
Qed.

Lemma alter_at_fails {A : Type} (f : A -> result A) (g : nat -> A) (e : error)
  (n c s : nat) :
  c < n -> f (g (s + c)) = Err e ->
  alter_at f c (map g (seq s n)) = Err e.
Proof.
  revert c s; induction n as [|n IH]; intros c s Hc Hf; [lia|].
  destruct c as [|c]; simpl.
  - rewrite Nat.add_0_r in *. rewrite Hf. trivial.
  - rewrite (IH c (S s)); trivial; [lia|].
    replace (S s + c) with (s + S c) by lia. trivial.
Qed.

Lemma nth_error_Some_lt {A : Type} (l : list A) (i : nat) (a : A) :
  nth_error l i = Some a -> i < length l.
Proof. intros H. apply nth_error_Some. congruence. Qed.

Lemma map_nth_seq {A : Type} (l : list A) (d : A) :
  map (fun i => nth i l d) (seq 0 (length l)) = l.
Proof.
  induction l as [|a l IH]; simpl; trivial.
  f_equal. rewrite <- seq_shift, map_map. exact IH.
Qed.

(** ** Sums of vectors *)

Lemma vadd_comm (a b : vec) : map2 Double.add a b = map2 Double.add b a.
Proof.
  revert b; induction a as [|x a IH]; intros [|y b]; simpl; trivial.
  rewrite DoubleFacts.add_comm, IH; trivial.
Qed.

Lemma vadd_assoc (a b c : vec) :
  map2 Double.add (map2 Double.add a b) c =
  map2 Double.add a (map2 Double.add b c).
Proof.
  revert b c; induction a as [|x a IH]; intros [|y b] [|z c]; simpl; trivial.
  rewrite DoubleFacts.add_assoc, IH; trivial.
Qed.

Lemma vadd_zero_l (v : vec) :
  map2 Double.add (repeat Double.zero (length v)) v = v.
Proof.
  induction v as [|x v IH]; trivial.
  cbn [length repeat map2].
  rewrite DoubleFacts.add_zero_l, IH; trivial.
Qed.

Lemma vadd_zero_r (v : vec) :
  map2 Double.add v (repeat Double.zero (length v)) = v.
Proof. rewrite vadd_comm. apply vadd_zero_l. Qed.

Lemma fold_vadd_length (l : list vec) (z : vec) :
  Forall (fun p => length p = length z) l ->
  length (fold_left (map2 Double.add) l z) = length z.
Proof.
  revert z; induction l as [|p l IH]; intros z H; simpl; trivial.
  inversion H as [|? ? Hp Hl]; subst.
  assert (Hz : length (map2 Double.add z p) = length z)
    by (apply map2_length; congruence).
  rewrite IH; trivial.
  rewrite Hz; trivial.
Qed.

Lemma fold_vadd_shift (l : list vec) (a b : vec) :
  fold_left (map2 Double.add) l (map2 Double.add a b) =
  map2 Double.add a (fold_left (map2 Double.add) l b).
Proof.
  revert a b; induction l as [|p l IH]; intros a b; simpl; trivial.
  rewrite vadd_assoc. apply IH.
Qed.

Lemma fold_vadd_perm (l l' : list vec) :
  Permutation l l' ->
  forall z, fold_left (map2 Double.add) l z = fold_left (map2 Double.add) l' z.
Proof.
  induction 1 as [|x l l' _ IH|x y l|l l' l'' _ IH1 _ IH2]; intros z; simpl.
  - trivial.
  - apply IH.
  - f_equal. rewrite !vadd_assoc. f_equal. apply vadd_comm.
  - rewrite IH1. apply IH2.
Qed.

Lemma vsum_length (d : nat) (ps : list vec) :
  Forall (fun p => length p = d) ps -> length (vsum d ps) = d.
Proof.
  intros H. unfold vsum.
  rewrite fold_vadd_length; rewrite repeat_length; trivial.
Qed.

Lemma vsum_app (d : nat) (a b : list vec) :
  Forall (fun p => length p = d) a ->
  vsum d (a ++ b) = map2 Double.add (vsum d a) (vsum d b).
Proof.
  intros Ha.
  pose proof (vadd_zero_r (vsum d a)) as E.
  rewrite (vsum_length _ _ Ha) in E.
  unfold vsum at 1. rewrite fold_left_app.
  transitivity (fold_left (map2 Double.add) b
                  (map2 Double.add (vsum d a) (repeat Double.zero d))).
  - f_equal. symmetry. exact E.
  - apply fold_vadd_shift.
Qed.

Lemma vsum_perm (d : nat) (a b : list vec) :
  Permutation a b -> vsum d a = vsum d b.
Proof. intros H. apply fold_vadd_perm; trivial. Qed.

(** ** The scan *)

Section ScanFacts.

Variable self : ParallelNaiveKMeans.
Variable centroids : mat.

Lemma scan_spec (p : vec) (cs : list vec) :
  forall (j : nat) (m : double) (c : nat),
    let m' := fst (scan self p cs j m c) in
    let c' := snd (scan self p cs j m c) in
    (m' = m \/ Double.lt m' m = true) /\
    (forall x, In x cs -> Double.lt (Evaluate (metric self) p x) m' = false) /\
    ((c' = c /\ m' = m) \/
     (exists k x, nth_error cs k = Some x /\ c' = j + k /\
        m' = Evaluate (metric self) p x /\ Double.lt m' m = true /\
        forall k' y, k' < k -> nth_error cs k' = Some y ->
                     Evaluate (metric self) p y <> m')).
Proof.
  induction cs as [|x cs IH]; intros j m c; simpl.
  - repeat split; auto. intros ? [].
  - destruct (Double.lt (Evaluate (metric self) p x) m) eqn:Hlt.
    + destruct (IH (S j) (Evaluate (metric self) p x) j) as (H1 & H2 & H3).
      split; [|split].
      * right. destruct H1 as [-> | H1]; trivial.
        eapply DoubleFacts.lt_trans; eauto.
      * intros y [<- | Hy]; auto.
        destruct H1 as [-> | H1];
          [apply DoubleFacts.lt_irrefl | apply DoubleFacts.lt_asym; trivial].
      * right. destruct H3 as [[Hc Hm] | (k & y & Hk & Hc & Hm & Hl & He)].
        -- exists 0, x. rewrite Hc, Hm, Nat.add_0_r.
           repeat split; trivial. intros; lia.
        -- exists (S k), y. rewrite Hc.
           repeat split; trivial; [lia| |].
           ++ eapply DoubleFacts.lt_trans; eauto.
           ++ intros [|k'] z Hk' Hz; simpl in Hz.
              ** injection Hz as <-. intros E. rewrite <- E in Hl.
                 rewrite DoubleFacts.lt_irrefl in Hl. discriminate.
              ** apply (He k'); trivial; lia.
    + destruct (IH (S j) m c) as (H1 & H2 & H3).
      assert (Hx : Double.lt (Evaluate (metric self) p x)
                     (fst (scan self p cs (S j) m c)) = false).
      { destruct H1 as [-> | H1]; trivial.
        destruct (Double.lt (Evaluate (metric self) p x)
                    (fst (scan self p cs (S j) m c))) eqn:E; trivial.
        rewrite (DoubleFacts.lt_trans _ _ _ E H1) in Hlt. discriminate. }
      split; [trivial | split].
      * intros y [<- | Hy]; auto.
      * destruct H3 as [H3 | (k & y & Hk & Hc & Hm & Hl & He)];
          [left; trivial|].
        right. exists (S k), y. rewrite Hc.
        repeat split; trivial; [lia|].
        intros [|k'] z Hk' Hz; simpl in Hz.
        -- injection Hz as <-. intros E. rewrite E in Hlt. congruence.
        -- apply (He k'); trivial; lia.
Qed.

(** The scan returns the sentinel [n_cols] or the index of a column. *)
Lemma closest_cluster_le (p : vec) :
  closest_cluster self centroids p <= n_cols centroids.
Proof.
  unfold closest_cluster.
  destruct (scan_spec p (cols centroids) 0 PInf (n_cols centroids))
    as (_ & _ & [[-> _] | (k & x & Hk & -> & _)]); trivial.
  apply nth_error_Some_lt in Hk. unfold n_cols. lia.
Qed.

(** The sentinel comes out exactly when no distance compares below
    +infinity. *)
Lemma closest_cluster_sentinel (p : vec) :
  closest_cluster self centroids p = n_cols centroids <->
  forall c, In c (cols centroids) ->
    Double.lt (Evaluate (metric self) p c) PInf = false.
Proof.
  unfold closest_cluster.
  destruct (scan_spec p (cols centroids) 0 PInf (n_cols centroids))
    as (_ & H2 & [[Hc Hm] | (k & x & Hk & Hc & Hm & Hl & _)]).
  - rewrite Hc, Hm in *. split; trivial.
  - rewrite Hc. split.
    + intros E. apply nth_error_Some_lt in Hk. unfold n_cols in E. lia.
    + intros H. apply nth_error_In in Hk. apply H in Hk.
      rewrite <- Hm, Hl in Hk. discriminate.
Qed.

End ScanFacts.

(** ** The accumulators *)

Lemma filter_perm {A : Type} (f : A -> bool) (l l' : list A) :
  Permutation l l' -> Permutation (filter f l) (filter f l').
Proof.
  induction 1 as [|x l l' _ IH|x y l|l l' l'' _ IH1 _ IH2]; simpl.
  - constructor.
  - destruct (f x); auto.
  - destruct (f x), (f y); auto. constructor.
  - eapply Permutation_trans; eauto.
Qed.

Lemma forallb_perm {A : Type} (f : A -> bool) (l l' : list A) :
  Permutation l l' -> forallb f l = forallb f l'.
Proof.
  induction 1 as [|x l l' _ IH|x y l|l l' l'' _ IH1 _ IH2]; simpl.
  - trivial.
  - rewrite IH; trivial.
  - destruct (f x), (f y); trivial.
  - congruence.
Qed.

Lemma foldM_lookup {A B S : Type} (g : A -> result B) (h : A -> B)
  (f : S -> B -> result S) (l : list A) :
  (forall i, In i l -> g i = OK (h i)) ->
  forall s, foldM (fun s i => p <- g i ;; f s p) l s = foldM f (map h l) s.
Proof.
  induction l as [|i l IH]; intros H s; simpl; trivial.
  rewrite H by (left; trivial). simpl.
  destruct (f s (h i)); simpl; trivial.
  apply IH. intros; apply H; right; trivial.
Qed.

Section AccFacts.

Variable self : ParallelNaiveKMeans.
Variable centroids : mat.

Local Abbreviation rows_ok :=
  (Forall (fun p : vec => length p = n_rows centroids)).
Local Abbreviation acc := (acc_of self centroids).
Local Abbreviation accept := (accepted self centroids).
Local Abbreviation cluster := (cluster_points self centroids).
Local Abbreviation step := (assign_point self centroids).
Local Abbreviation region := (parallel_region self centroids).

Lemma accepted_rows (ps : list vec) : forallb accept ps = true -> rows_ok ps.
Proof.
  rewrite forallb_forall, Forall_forall. intros H p Hp.
  apply H in Hp. unfold accepted in Hp.
  apply andb_true_iff in Hp as [_ Hp]. apply Nat.eqb_eq; trivial.
Qed.

Lemma cluster_points_rows (i : nat) (ps : list vec) :
  rows_ok ps -> rows_ok (cluster i ps).
Proof.
  rewrite !Forall_forall. intros H p Hp. apply H.
  apply filter_In in Hp. tauto.
Qed.

Lemma acc_of_nil :
  acc [] = (zeros_mat (n_rows centroids) (n_cols centroids),
               repeat 0 (n_cols centroids)).
Proof.
  unfold acc_of, zeros_mat, cluster_points, vsum. simpl.
  rewrite !map_const_seq. trivial.
Qed.

Lemma acc_of_perm (ps ps' : list vec) :
  Permutation ps ps' -> acc ps = acc ps'.
Proof.
  intros H. unfold acc_of. f_equal; [f_equal|]; apply map_ext; intros i.
  - apply vsum_perm, filter_perm; trivial.
  - apply Permutation_length, filter_perm; trivial.
Qed.

Lemma cluster_points_snoc (i : nat) (ps : list vec) (p : vec) :
  cluster i (ps ++ [p]) =
  cluster i ps ++ (if assigned self centroids i p then [p] else []).
Proof. unfold cluster_points. rewrite filter_app. trivial. Qed.

(** The loop body on an accepted point. *)
Lemma assign_point_accepted (pre : list vec) (p : vec) :
  rows_ok pre -> accept p = true ->
  step (acc pre) p = OK (acc (pre ++ [p])).
Proof.
  intros Hpre Hp. unfold accepted in Hp.
  apply andb_true_iff in Hp as [Hc Hl].
  apply Nat.ltb_lt in Hc. apply Nat.eqb_eq in Hl.
  unfold assign_point.
  destruct (Nat.eqb_spec (closest_cluster self centroids p) (n_cols centroids));
    [lia|].
  cbn [negb Log_Assert bind].
  set (c := closest_cluster self centroids p) in *.
  cbn [acc_of fst snd cols n_rows].
  rewrite (alter_at_map_seq _ _ (map2 Double.add
             (vsum (n_rows centroids) (cluster c pre)) p) _ c 0 Hc).
  2:{ cbv beta. cbn [Nat.add]. unfold vec_plus_assign.
      rewrite (vsum_length _ _ (cluster_points_rows c _ Hpre)), Hl.
      rewrite Nat.eqb_refl.
      trivial. }
  cbn [bind].
  rewrite (alter_at_map_seq _ _ (S (length (cluster c pre))) _ c 0 Hc)
    by trivial.
  cbn [bind]. unfold acc_of. do 2 f_equal.
  - f_equal. apply map_ext. intros j. rewrite cluster_points_snoc.
    unfold assigned. fold c. rewrite (Nat.eqb_sym c j).
    destruct (Nat.eqb_spec j (0 + c)) as [-> | Hj]; simpl.
    + rewrite Nat.eqb_refl. unfold vsum. rewrite fold_left_app. trivial.
    + destruct (Nat.eqb_spec j c); [lia|]. rewrite app_nil_r. trivial.
  - apply map_ext. intros j. rewrite cluster_points_snoc.
    unfold assigned. fold c. rewrite (Nat.eqb_sym c j).
    destruct (Nat.eqb_spec j (0 + c)) as [-> | Hj]; simpl.
    + rewrite Nat.eqb_refl, length_app. simpl. lia.
    + destruct (Nat.eqb_spec j c); [lia|]. rewrite app_nil_r. trivial.
Qed.

(** The loop body on a point that is not accepted. *)
Lemma assign_point_rejected (pre : list vec) (p : vec) :
  rows_ok pre -> accept p = false ->
  exists e, step (acc pre) p = Err e /\ loop_error e.
Proof.
  intros Hpre Hp. unfold assign_point, loop_error.
  destruct (Nat.eqb_spec (closest_cluster self centroids p) (n_cols centroids))
    as [E | E]; [simpl; eauto|].
  cbn [negb Log_Assert bind].
  pose proof (closest_cluster_le self centroids p) as Hle.
  assert (Hc : closest_cluster self centroids p < n_cols centroids) by lia.
  unfold accepted in Hp. apply andb_false_iff in Hp as [Hp | Hp].
  { apply Nat.ltb_ge in Hp. lia. }
  apply Nat.eqb_neq in Hp.
  set (c := closest_cluster self centroids p) in *.
  cbn [acc_of fst snd cols n_rows].
  rewrite (alter_at_fails _ _ IncompatibleDims _ c 0 Hc);
    [simpl; eauto|].
  cbv beta. cbn [Nat.add]. unfold vec_plus_assign.
  rewrite (vsum_length _ _ (cluster_points_rows c _ Hpre)).
  destruct (Nat.eqb_spec (n_rows centroids) (length p)); [lia | trivial].
Qed.

(** A run of the loop body over the points [pts]. *)
Lemma foldM_assign_point (pts : list vec) :
  forall pre, rows_ok pre ->
    (forallb accept pts = true ->
     foldM step pts (acc pre) =
     OK (acc (pre ++ pts))) /\
    (forallb accept pts = false ->
     exists e, foldM step pts (acc pre) = Err e /\
               loop_error e).
Proof.
  induction pts as [|p pts IH]; intros pre Hpre; simpl.
  - rewrite app_nil_r. split; [trivial | discriminate].
  - destruct (accept p) eqn:Hp; simpl.
    + rewrite (assign_point_accepted _ _ Hpre Hp). cbn [bind].
      replace (pre ++ p :: pts) with ((pre ++ [p]) ++ pts)
        by (rewrite <- app_assoc; trivial).
      apply IH. apply Forall_app. split; trivial.
      apply (accepted_rows [p]). simpl. rewrite Hp. trivial.
    + split; [discriminate|]. intros _.
      destruct (assign_point_rejected _ _ Hpre Hp) as (e & -> & He).
      simpl. eauto.
Qed.

(** The critical section adds up what two accumulators hold. *)
Lemma merge_acc_of (a b : list vec) :
  rows_ok a ->
  merge (acc a) (acc b) = OK (acc (a ++ b)).
Proof.
  intros Ha. unfold merge, mat_plus_assign, counts_plus_assign, n_cols.
  cbn [acc_of fst snd cols n_rows].
  rewrite !length_map, !Nat.eqb_refl. cbn [andb bind].
  rewrite !map2_map_seq. unfold acc_of. do 2 f_equal.
  - f_equal. apply map_ext. intros i. unfold cluster_points.
    rewrite filter_app. symmetry. apply vsum_app.
    apply cluster_points_rows; trivial.
  - apply map_ext. intros i. unfold cluster_points.
    rewrite filter_app, length_app. trivial.
Qed.

Lemma worker_points (chunk : list nat) :
  (forall i, In i chunk -> i < n_cols (dataset self)) ->
  worker self centroids chunk =
  foldM step (map (point self) chunk) (acc []).
Proof.
  intros H. unfold worker. rewrite acc_of_nil.
  apply foldM_lookup. intros i Hi. unfold col, point.
  rewrite (nth_error_nth' _ ([] : vec) (H i Hi)). trivial.
Qed.

Lemma parallel_region_cons (chunk : list nat) (s : schedule)
  (shared : mat * list nat) :
  region (chunk :: s) shared =
  (shared' <- (local <- worker self centroids chunk ;; merge shared local) ;;
   region s shared').
Proof. reflexivity. Qed.

(** The parallel region, from shared accumulators that hold [pre]. *)
Lemma parallel_region_acc_of (s : schedule) :
  (forall i, In i (concat s) -> i < n_cols (dataset self)) ->
  forall pre, rows_ok pre ->
    (forallb accept (map (point self) (concat s)) = true ->
     region s (acc pre) =
     OK (acc (pre ++ map (point self) (concat s)))) /\
    (forallb accept (map (point self) (concat s)) = false ->
     exists e, region s (acc pre) = Err e /\
               loop_error e).
Proof.
  induction s as [|chunk s IH]; intros Hs pre Hpre.
  - simpl. rewrite app_nil_r. split; [trivial | discriminate].
  - rewrite parallel_region_cons. cbn [concat].
    rewrite map_app, forallb_app.
    rewrite worker_points
      by (intros i Hi; apply Hs; simpl; apply in_or_app; left; trivial).
    destruct (foldM_assign_point (map (point self) chunk) [])
      as [Hok Hko]; [constructor|].
    destruct (forallb accept (map (point self) chunk)) eqn:Hchunk; simpl.
    + rewrite (Hok eq_refl). cbn [bind app].
      rewrite (merge_acc_of _ _ Hpre). cbn [bind].
      rewrite app_assoc. apply IH.
      * intros i Hi; apply Hs; simpl; apply in_or_app; right; trivial.
      * apply Forall_app. split; trivial. apply accepted_rows; trivial.
    + split; [discriminate|]. intros _.
      destruct (Hko eq_refl) as (e & -> & He). simpl. eauto.
Qed.

Lemma schedule_ok_points (s : schedule) :
  schedule_ok s (n_cols (dataset self)) ->
  (forall i, In i (concat s) -> i < n_cols (dataset self)) /\
  Permutation (map (point self) (concat s)) (cols (dataset self)).
Proof.
  intros H. split.
  - intros i Hi. apply (Permutation_in _ H) in Hi. apply in_seq in Hi. lia.
  - pose proof (Permutation_map (point self) H) as P.
    replace (map (point self) (seq 0 (n_cols (dataset self))))
      with (cols (dataset self)) in P; [exact P|].
    symmetry. apply map_nth_seq.
Qed.

(** The parallel region under a schedule of the whole loop. *)
Lemma parallel_region_spec (s : schedule) :
  schedule_ok s (n_cols (dataset self)) ->
  (forallb accept (cols (dataset self)) = true ->
   region s
     (zeros_mat (n_rows centroids) (n_cols centroids),
      repeat 0 (n_cols centroids)) =
   OK (acc (cols (dataset self)))) /\
  (forallb accept (cols (dataset self)) = false ->
   exists e, region s
     (zeros_mat (n_rows centroids) (n_cols centroids),
      repeat 0 (n_cols centroids)) = Err e /\ loop_error e).
Proof.
  intros H. destruct (schedule_ok_points s H) as [Hi Hp].
  rewrite <- acc_of_nil, <- (acc_of_perm _ _ Hp).
  rewrite <- (forallb_perm accept _ _ Hp).
  apply (parallel_region_acc_of s Hi []). constructor.
Qed.

End AccFacts.

(** ** Normalisation, distortion and the whole iteration *)

Section IterateFacts.

Variable size_bits : N.
Variable self : ParallelNaiveKMeans.
Variable centroids : mat.

Lemma normalize_prefix (d k : nat) (g : nat -> vec) (c : nat -> nat) (m : nat) :
  m <= k ->
  foldM (normalize_step (map c (seq 0 k))) (seq 0 m)
        (Mat d (map g (seq 0 k))) =
  OK (Mat d (map (fun j => if j <? m then normalized g c j else g j)
                 (seq 0 k))).
Proof.
  induction m as [|m IH]; intros Hm.
  - reflexivity.
  - rewrite seq_S, foldM_app, IH by lia. cbn [bind foldM Nat.add].
    unfold normalize_step.
    rewrite nth_error_map_seq by lia.
    destruct (Nat.eqb_spec (c m) 0) as [E | E]; cbn [bind].
    + do 2 f_equal. apply map_ext. intros j.
      destruct (Nat.ltb_spec j m), (Nat.ltb_spec j (S m)); trivial; try lia.
      assert (j = m) by lia; subst j. unfold normalized. rewrite E. trivial.
    + cbn [cols n_rows].
      rewrite (alter_at_map_seq _ _ (vec_div_assign (g m) (c m)) k m 0)
        by (trivial; cbn [Nat.add]; rewrite Nat.ltb_irrefl; trivial).
      cbn [bind]. do 2 f_equal. apply map_ext. intros j. cbn [Nat.add].
      destruct (Nat.eqb_spec j m) as [-> | Hj].
      * rewrite (proj2 (Nat.ltb_lt m (S m))) by lia.
        unfold normalized. destruct (Nat.eqb_spec (c m) 0); [lia | trivial].
      * destruct (Nat.ltb_spec j m), (Nat.ltb_spec j (S m)); trivial; lia.
Qed.

Lemma normalize_spec (d : nat) (g : nat -> vec) (c : nat -> nat) :
  normalize centroids (map c (seq 0 (n_cols centroids)))
            (Mat d (map g (seq 0 (n_cols centroids)))) =
  OK (Mat d (map (normalized g c) (seq 0 (n_cols centroids)))).
Proof.
  unfold normalize. rewrite normalize_prefix by lia.
  do 2 f_equal. apply map_ext_in. intros j Hj. apply in_seq in Hj.
  destruct (Nat.ltb_spec j (n_cols centroids)); [trivial | lia].
Qed.

Lemma distortion_sum_spec (d : nat) (h : nat -> vec) :
  distortion_sum self centroids (Mat d (map h (seq 0 (n_cols centroids)))) =
  OK (squared_displacements self centroids h).
Proof.
  unfold distortion_sum, squared_displacements.
  apply foldM_pure. intros cNorm i Hi. apply in_seq in Hi.
  unfold distortion_step, col. cbn [cols].
  rewrite (nth_error_nth' _ ([] : vec)) by (unfold n_cols in Hi; lia).
  rewrite nth_error_map_seq by lia. reflexivity.
Qed.

Lemma Iterate_spec (newCentroids : mat) (counts : list nat) (s : schedule) :
  schedule_ok s (n_cols (dataset self)) ->
  (forallb (accepted self centroids) (cols (dataset self)) = true ->
   Iterate size_bits self centroids newCentroids counts s =
   OK (expected size_bits self centroids)) /\
  (forallb (accepted self centroids) (cols (dataset self)) = false ->
   exists e, Iterate size_bits self centroids newCentroids counts s = Err e /\
             loop_error e).
Proof.
  intros Hs. unfold Iterate, mat_zeros, counts_zeros.
  destruct (parallel_region_spec self centroids s Hs) as [Hok Hko].
  split; intros H.
  - rewrite (Hok H). cbn [bind]. unfold acc_of. cbn [fst snd].
    rewrite normalize_spec. cbn [bind].
    rewrite distortion_sum_spec. cbn [bind]. reflexivity.
  - destruct (Hko H) as (e & -> & He). simpl. eauto.
Qed.

Lemma Iterate_OK_inv (newCentroids : mat) (counts : list nat) (s : schedule)
  (r : IterateResult) :
  schedule_ok s (n_cols (dataset self)) ->
  Iterate size_bits self centroids newCentroids counts s = OK r ->
  forallb (accepted self centroids) (cols (dataset self)) = true /\
  r = expected size_bits self centroids.
Proof.
  intros Hs Hr.
  destruct (Iterate_spec newCentroids counts s Hs) as [Hok Hko].
  destruct (forallb (accepted self centroids) (cols (dataset self))).
  - rewrite (Hok eq_refl) in Hr. injection Hr as <-. auto.
  - destruct (Hko eq_refl) as (e & He & _). congruence.
Qed.

Lemma sequential_Iterate_spec :
  (forallb (accepted self centroids) (cols (dataset self)) = true ->
   sequential_Iterate size_bits self centroids =
   OK (expected size_bits self centroids)) /\
  (forallb (accepted self centroids) (cols (dataset self)) = false ->
   exists e, sequential_Iterate size_bits self centroids = Err e /\
             loop_error e).
Proof.
  unfold sequential_Iterate, sequential_scan.
  rewrite <- (acc_of_nil self centroids).
  destruct (foldM_assign_point self centroids (cols (dataset self)) [])
    as [Hok Hko]; [constructor|].
  split; intros H.
  - rewrite (Hok H). cbn [bind app]. unfold acc_of. cbn [fst snd].
    rewrite normalize_spec. cbn [bind].
    rewrite distortion_sum_spec. cbn [bind]. reflexivity.
  - destruct (Hko H) as (e & -> & He). simpl. eauto.
Qed.

Lemma sequential_Iterate_OK_inv (r : IterateResult) :
  sequential_Iterate size_bits self centroids = OK r ->
  forallb (accepted self centroids) (cols (dataset self)) = true /\
  r = expected size_bits self centroids.
Proof.
  intros Hr. destruct sequential_Iterate_spec as [Hok Hko].
  destruct (forallb (accepted self centroids) (cols (dataset self))).
  - rewrite (Hok eq_refl) in Hr. injection Hr as <-. auto.
  - destruct (Hko eq_refl) as (e & He & _). congruence.
Qed.

End IterateFacts.

(** ** Counting *)

Lemma list_sum_map_add {A : Type} (f g : A -> nat) (l : list A) :
  list_sum (map (fun i => f i + g i) l) =
  list_sum (map f l) + list_sum (map g l).
Proof. induction l as [|a l IH]; simpl; lia. Qed.

Lemma list_sum_indicator_out (c s n : nat) :
  c < s ->
  list_sum (map (fun i => if c =? i then 1 else 0) (seq s n)) = 0.
Proof.
  revert s; induction n as [|n IH]; intros s H; simpl; trivial.
  destruct (Nat.eqb_spec c s); [lia|]. apply IH. lia.
Qed.

Lemma list_sum_indicator (c s n : nat) :
  s <= c < s + n ->
  list_sum (map (fun i => if c =? i then 1 else 0) (seq s n)) = 1.
Proof.
  revert s; induction n as [|n IH]; intros s H; [lia|].
  simpl. destruct (Nat.eqb_spec c s) as [-> | Hc].
  - rewrite list_sum_indicator_out; lia.
  - rewrite IH; lia.
Qed.

Lemma cluster_sizes_sum (self : ParallelNaiveKMeans) (centroids : mat)
  (ps : list vec) :
  (forall p, In p ps -> closest_cluster self centroids p < n_cols centroids) ->
  list_sum (map (fun i => length (cluster_points self centroids i ps))
                (seq 0 (n_cols centroids))) = length ps.
Proof.
  induction ps as [|p ps IH]; intros H.
  - cbn [cluster_points filter length]. rewrite map_const_seq.
    generalize (n_cols centroids). intros n. induction n; simpl; auto.
  - transitivity
      (list_sum (map (fun i =>
                        (if closest_cluster self centroids p =? i
                         then 1 else 0) +
                        length (cluster_points self centroids i ps))
                     (seq 0 (n_cols centroids)))).
    + f_equal. apply map_ext. intros i. unfold cluster_points, assigned. simpl.
      destruct (closest_cluster self centroids p =? i); trivial.
    + rewrite list_sum_map_add, IH by (intros; apply H; right; trivial).
      rewrite list_sum_indicator; simpl; trivial.
      split; [lia | apply H; left; trivial].
Qed.

Lemma accepted_selected (self : ParallelNaiveKMeans) (centroids : mat)
  (ps : list vec) :
  forallb (accepted self centroids) ps = true ->
  forall p, In p ps -> closest_cluster self centroids p < n_cols centroids.
Proof.
  intros H p Hp. rewrite forallb_forall in H. apply H in Hp.
  unfold accepted in Hp. apply andb_true_iff in Hp as [Hp _].
  apply Nat.ltb_lt; trivial.
Qed.

Lemma nth_map_seq {A : Type} (g : nat -> A) (n i : nat) (d : A) :
  i < n -> nth i (map g (seq 0 n)) d = g i.
Proof.
  intros H. apply nth_error_nth. apply nth_error_map_seq; trivial.
Qed.


(** ** The distortion *)

Lemma sum_ok_step (a x : double) :
  sum_ok a ->
  sum_ok (Double.add a (Double.pow2 x)) /\
  (Double.add a (Double.pow2 x) = Double.zero <->
   a = Double.zero /\ x = Double.zero) /\
  (a <> NaN -> x <> NaN -> Double.add a (Double.pow2 x) <> NaN).
Proof.
  unfold Double.zero.
  destruct a as [r| | |], x as [v| | |]; simpl; intros Ha;
    try contradiction;
    (split; [|split; [split|]]); trivial; try discriminate; try congruence;
    try (intros [? ?]; discriminate).
  - nra.
  - intros H. injection H as H. split; f_equal; nra.
  - intros [Hr Hv]. injection Hr as ->. injection Hv as ->. f_equal. lra.
Qed.

Lemma sum_ok_fold (f : nat -> double) (l : list nat) :
  forall a, sum_ok a ->
    let total := fold_left (fun c i => Double.add c (Double.pow2 (f i))) l a in
    sum_ok total /\
    (total = Double.zero <->
     a = Double.zero /\ forall i, In i l -> f i = Double.zero) /\
    (a <> NaN -> (forall i, In i l -> f i <> NaN) -> total <> NaN).
Proof.
  induction l as [|i l IH]; intros a Ha; simpl.
  - repeat split; trivial; tauto.
  - destruct (sum_ok_step a (f i) Ha) as (H1 & H2 & H3).
    destruct (IH _ H1) as (I1 & I2 & I3).
    split; [trivial | split].
    + rewrite I2, H2. split.
      * intros [[? ?] ?]. split; trivial. intros j [<- | Hj]; auto.
      * intros [? H]. repeat split; auto.
    + intros Hn Hf. apply I3; auto.
Qed.

Lemma sqrt_sum_ok (a : double) :
  sum_ok a ->
  (Double.sqrt a = Double.zero <-> a = Double.zero) /\
  (a <> NaN -> Double.sqrt a <> NaN).
Proof.
  unfold Double.zero. destruct a as [r| | |]; simpl; intros Ha;
    try contradiction; (split; [split|]); try discriminate; try congruence.
  - destruct (Rlt_dec r 0); [discriminate|]. intros H. injection H as H.
    f_equal. apply sqrt_eq_0; trivial.
  - intros H. injection H as ->. destruct (Rlt_dec 0 0); [lra|].
    f_equal. apply sqrt_0.
  - destruct (Rlt_dec r 0); [lra | discriminate].
Qed.

Lemma sqrt_not_negative (a : double) :
  Double.lt (Double.sqrt a) Double.zero = false.
Proof.
  destruct a as [r| | |]; simpl; trivial.
  destruct (Rlt_dec r 0); simpl; trivial.
  destruct (Rlt_dec (sqrt r) 0) as [H|]; trivial.
  pose proof (sqrt_pos r). lra.
Qed.

Lemma fold_left_ext_in {A B : Type} (f g : A -> B -> A) (l : list B) :
  (forall a x, In x l -> f a x = g a x) ->
  forall a, fold_left f l a = fold_left g l a.
Proof.
  induction l as [|x l IH]; intros H a; simpl; trivial.
  rewrite H by (left; trivial). apply IH. intros; apply H; right; trivial.
Qed.

Lemma squared_displacements_ext (self : ParallelNaiveKMeans) (centroids : mat)
  (h h' : nat -> vec) :
  (forall i, i < n_cols centroids -> h i = h' i) ->
  squared_displacements self centroids h =
  squared_displacements self centroids h'.
Proof.
  intros H. unfold squared_displacements. apply fold_left_ext_in.
  intros a i Hi. apply in_seq in Hi. rewrite H by lia. trivial.
Qed.


(** ** The assertion *)

Lemma alter_at_error {A : Type} (f : A -> result A) (i : nat) (l : list A)
  (e : error) :
  alter_at f i l = Err e ->
  e = IndexOutOfBounds \/ exists x, f x = Err e.
Proof.
  revert i; induction l as [|x l IH]; intros [|i] H; simpl in H.
  - left. congruence.
  - left. congruence.
  - destruct (f x) eqn:E; simpl in H; [discriminate|].
    right. exists x. congruence.
  - destruct (alter_at f i l) eqn:E; simpl in H; [discriminate|].
    apply (IH i). congruence.
Qed.


(** With at least one centroid and distances that are neither not-a-number
    nor +infinity, the scan selects the index of a centroid. *)
Lemma closest_cluster_selects (self : ParallelNaiveKMeans) (centroids : mat)
  (p : vec) :
  cols centroids <> [] ->
  (forall c, In c (cols centroids) ->
     Evaluate (metric self) p c <> NaN /\ Evaluate (metric self) p c <> PInf) ->
  closest_cluster self centroids p < n_cols centroids.
Proof.
  intros Hk Hm.
  pose proof (closest_cluster_le self centroids p) as Hle.
  destruct (Nat.eq_dec (closest_cluster self centroids p) (n_cols centroids))
    as [E | E]; [|lia].
  pose proof (proj1 (closest_cluster_sentinel self centroids p) E) as E'.
  destruct (cols centroids) as [|c cs] eqn:Hcs; [congruence|].
  assert (Hin : In c (c :: cs)) by (left; trivial).
  specialize (E' c Hin). destruct (Hm c Hin) as [Hn Hp].
  assert (Double.lt (Evaluate (metric self) p c) PInf = true)
    by (apply DoubleFacts.lt_PInf; auto).
  congruence.
Qed.

(** Once a centroid is selected, the loop body does not fail on its
    assertion. *)
Lemma assign_point_selected (self : ParallelNaiveKMeans) (centroids : mat)
  (local : mat * list nat) (p : vec) :
  closest_cluster self centroids p < n_cols centroids ->
  assign_point self centroids local p <> Err AssertFailed.
Proof.
  intros Hlt. unfold assign_point.
  destruct (Nat.eqb_spec (closest_cluster self centroids p) (n_cols centroids));
    [lia|].
  cbn [negb Log_Assert bind].
  destruct (alter_at _ _ (cols (fst local))) as [cs|e] eqn:E1; simpl.
  - destruct (alter_at _ _ (snd local)) as [cnt|e] eqn:E2; simpl;
      [discriminate|].
    apply alter_at_error in E2 as [-> | [x Hx]]; discriminate.
  - apply alter_at_error in E1 as [-> | [x Hx]]; [discriminate|].
    unfold vec_plus_assign in Hx.
    destruct (length x =? length p); congruence.
Qed.

(** ** Configurations that the loop does not accept *)

Lemma assign_point_no_centroid (self : ParallelNaiveKMeans) (centroids : mat)
  (local : mat * list nat) (p : vec) :
  n_cols centroids = 0 ->
  assign_point self centroids local p = Err AssertFailed.
Proof.
  intros HK. unfold assign_point.
  pose proof (closest_cluster_le self centroids p) as Hle.
  destruct (Nat.eqb_spec (closest_cluster self centroids p) (n_cols centroids));
    [reflexivity | lia].
Qed.

Lemma worker_no_centroid (self : ParallelNaiveKMeans) (centroids : mat)
  (chunk : list nat) :
  n_cols centroids = 0 ->
  (forall i, In i chunk -> i < n_cols (dataset self)) ->
  worker self centroids chunk =
  match chunk with
  | [] => OK (Mat (n_rows centroids) [], [])
  | _ :: _ => Err AssertFailed
  end.
Proof.
  intros HK Hin. unfold worker, zeros_mat. rewrite HK.
  destruct chunk as [|i chunk]; [reflexivity|].
  cbn [foldM]. unfold col.
  rewrite (nth_error_nth' _ ([] : vec) (Hin i (or_introl eq_refl))).
  cbn [bind]. rewrite assign_point_no_centroid by trivial. reflexivity.
Qed.

Lemma parallel_region_no_centroid (self : ParallelNaiveKMeans)
  (centroids : mat) (s : schedule) :
  n_cols centroids = 0 ->
  (forall i, In i (concat s) -> i < n_cols (dataset self)) ->
  concat s <> [] ->
  parallel_region self centroids s (Mat (n_rows centroids) [], []) =
  Err AssertFailed.
Proof.
  intros HK. induction s as [|chunk s IH]; intros Hin Hne;
    [simpl in Hne; congruence|].
  rewrite parallel_region_cons, worker_no_centroid; trivial.
  2:{ intros i Hi. apply Hin. simpl. apply in_or_app. left; trivial. }
  destruct chunk as [|i chunk]; [|reflexivity].
  unfold merge, mat_plus_assign, counts_plus_assign.
  cbn [fst snd n_rows n_cols cols length bind map2 Nat.eqb andb].
  rewrite Nat.eqb_refl. cbn [andb bind]. apply IH; trivial.
Qed.


(** ** Inputs that the loop accepts *)

Lemma valid_input_accepted (self : ParallelNaiveKMeans) (centroids : mat) :
  cols centroids <> [] ->
  (forall p, In p (cols (dataset self)) -> length p = n_rows centroids) ->
  (forall p c, In p (cols (dataset self)) -> In c (cols centroids) ->
     Evaluate (metric self) p c <> NaN /\ Evaluate (metric self) p c <> PInf) ->
  forallb (accepted self centroids) (cols (dataset self)) = true.
Proof.
  intros HK Hrows Hm. apply forallb_forall. intros p Hp. unfold accepted.
  apply andb_true_iff. split.
  - apply Nat.ltb_lt. apply closest_cluster_selects; auto.
  - apply Nat.eqb_eq. auto.
Qed.

(** On a valid input, with distances that are numbers below +infinity,
    [Iterate] returns. *)
Lemma Iterate_returns (size_bits : N) (self : ParallelNaiveKMeans)
  (centroids : mat) (newCentroids : mat) (counts : list nat) (s : schedule) :
  schedule_ok s (n_cols (dataset self)) ->
  cols centroids <> [] ->
  (forall p, In p (cols (dataset self)) -> length p = n_rows centroids) ->
  (forall p c, In p (cols (dataset self)) -> In c (cols centroids) ->
     Evaluate (metric self) p c <> NaN /\
     Evaluate (metric self) p c <> PInf) ->
  Iterate size_bits self centroids newCentroids counts s =
  OK (expected size_bits self centroids).
Proof.
  intros Hs HK Hrows Hm. apply Iterate_spec; trivial.
  apply valid_input_accepted; trivial.
Qed.

(** ** Schedules *)

Lemma chunks_concat (sizes : list nat) :
  forall start, concat (chunks start sizes) = seq start (list_sum sizes).
Proof.
  induction sizes as [|n sizes IH]; intros start; simpl; trivial.
  rewrite IH, seq_app. trivial.
Qed.

(** Contiguous chunks, one per worker, make a schedule of the loop. *)
Lemma chunks_ok (sizes : list nat) :
  schedule_ok (chunks 0 sizes) (list_sum sizes).
Proof. unfold schedule_ok. rewrite chunks_concat. apply Permutation_refl. Qed.

Lemma concat_perm {A : Type} (s s' : list (list A)) :
  Permutation s s' -> Permutation (concat s) (concat s').
Proof.
  induction 1 as [|x l l' _ IH|x y l|l l' l'' _ IH1 _ IH2]; simpl.
  - constructor.
  - apply Permutation_app_head; trivial.
  - rewrite !app_assoc. apply Permutation_app_tail, Permutation_app_comm.
  - eapply Permutation_trans; eauto.
Qed.

(** The order in which the workers enter the critical section is free. *)
Lemma schedule_ok_perm (s s' : schedule) (n : nat) :
  Permutation s s' -> schedule_ok s n -> schedule_ok s' n.
Proof.
  unfold schedule_ok. intros H Hs.
  eapply Permutation_trans; [|exact Hs].
  apply Permutation_sym, concat_perm; trivial.
Qed.

(** One worker that scans the points in order. *)
Lemma schedule_ok_sequential (n : nat) : schedule_ok [seq 0 n] n.
Proof.
  unfold schedule_ok. simpl. rewrite app_nil_r. apply Permutation_refl.
Qed.

(** The buffers that [Iterate] returns have the shape of the centroids. *)
Lemma expected_shape (size_bits : N) (self : ParallelNaiveKMeans)
  (centroids : mat) :
  let r := expected size_bits self centroids in
  n_rows (r_newCentroids r) = n_rows centroids /\
  n_cols (r_newCentroids r) = n_cols centroids /\
  length (r_counts r) = n_cols centroids.
Proof.
  unfold n_cols. cbn [expected r_newCentroids r_counts n_rows cols].
  rewrite !length_map, !length_seq. auto.
Qed.

(** * The scenarios *)

Lemma IterateResult_eq (a1 a2 : ParallelNaiveKMeans) (b1 b2 : mat)
  (c1 c2 : list nat) (d1 d2 : double) :
  a1 = a2 -> b1 = b2 -> c1 = c2 -> d1 = d2 ->
  OK (Build_IterateResult a1 b1 c1 d1) = OK (Build_IterateResult a2 b2 c2 d2).
Proof. congruence. Qed.

(** Closes a goal of real arithmetic on constants and absolute values. *)
Ltac r_close :=
  simpl INR in *; unfold Rabs in *; repeat destruct Rcase_abs; lra.

(** Decides the comparisons of reals that the evaluation is stuck on. *)
Ltac r_decide :=
  repeat match goal with
  | |- context [Rlt_dec ?a ?b] =>
      let H := fresh in
      destruct (Rlt_dec a b) as [H | H];
      [ try (exfalso; clear - H; r_close) | try (exfalso; clear - H; r_close) ];
      try clear H
  end.

(** Equality of results, component by component. *)
Ltac r_eq :=
  repeat match goal with
  | |- @eq R _ _ => r_close
  | |- sqrt _ = sqrt _ => apply f_equal
  | |- Fin _ = Fin _ => apply f_equal
  | |- cons _ _ = cons _ _ => apply f_equal2
  | |- Mat _ _ = Mat _ _ => apply f_equal2
  | |- _ => reflexivity
  end.

(** Runs the program on the inputs of [Scenario]. *)
Ltac run :=
  cbv [Iterate parallel_region worker merge foldM bind col assign_point
       Log_Assert negb
       closest_cluster scan alter_at vec_plus_assign mat_plus_assign
       counts_plus_assign normalize normalize_step distortion_sum
       distortion_step mat_zeros counts_zeros zeros_mat n_cols n_rows cols
       dataset metric distanceCalculations new_ParallelNaiveKMeans
       accepted forallb chunks concat app
       map2 map repeat seq nth_error nth length Nat.eqb Nat.ltb Nat.leb
       Nat.add r_self r_newCentroids r_counts r_distortion
       andb fst snd vec_div_assign fold_left
       Double.lt Double.add Double.sub Double.abs Double.pow2 Double.zero
       Double.div_count Double.sqrt Evaluate
       Scenario.manhattan Scenario.first_coordinate Scenario.overflowed
       Scenario.v1 Scenario.dataset1 Scenario.centroids1 Scenario.kmeans1
       Scenario.two_workers Scenario.dataset2 Scenario.centroids2
       Scenario.kmeans2 Scenario.midpoint Scenario.dataset3
       Scenario.centroids3 Scenario.kmeans3 Scenario.dataset4
       Scenario.no_centroid Scenario.kmeans4 Scenario.kmeans_empty
       Scenario.centroids_2rows Scenario.kmeans_full Scenario.centroids4
       Scenario.kmeans_overflowed Scenario.dataset_inf Scenario.kmeans_inf
       Scenario.buffer Scenario.stale_buffer
       Scenario.result1 Scenario.result2 Scenario.result3
       Scenario.result_empty Scenario.result_full].

Ltac run_to_result :=
  run; r_decide; run; r_decide; apply IterateResult_eq; r_eq.

Lemma two_workers_ok : schedule_ok Scenario.two_workers 4.
Proof. exact (chunks_ok [2; 2]). Qed.

Lemma one_worker_ok : schedule_ok [[0]] 1.
Proof. exact (schedule_ok_sequential 1). Qed.

(** The scenario of the specification: dataset {0, 1, 10, 11}, centroids
    {0, 10}; counts {2, 2}, new centroids {0.5, 10.5}, distortion
    sqrt(0.5), and 2 * 4 + 2 distances. *)
Lemma scenario1_run :
  Iterate 64 Scenario.kmeans1 Scenario.centroids1 Scenario.buffer []
          Scenario.two_workers = OK Scenario.result1.
Proof. run_to_result. Qed.



Lemma scenario3_run :
  Iterate 64 Scenario.kmeans3 Scenario.centroids3 Scenario.buffer [] [[0]] =
  OK Scenario.result3.
Proof. run_to_result. Qed.

Lemma scenario_empty_run :
  Iterate 64 Scenario.kmeans_empty Scenario.no_centroid Scenario.buffer []
    [[]] =
  OK Scenario.result_empty.
Proof. run_to_result. Qed.

Lemma scenario_full_run :
  Iterate 64 Scenario.kmeans_full Scenario.centroids4 Scenario.buffer [] [[0]] =
  OK Scenario.result_full.
Proof. run_to_result. Qed.


(** * The claims *)

(** The claims C1 and C2 compute sums, quotients and squares: they are
    stated over the arithmetic of the machine, at the end. *)

(** C3.  When [Iterate] returns, the counts add up to the number of
    points: every point has selected the index of one cluster, and the
    count of a cluster is the number of points that selected it. *)
Theorem Iterate_counts_sum (size_bits : N)
  (self : ParallelNaiveKMeans) (centroids : mat)
  (newCentroids : mat) (counts : list nat) (s : schedule) (r : IterateResult) :
  schedule_ok s (n_cols (dataset self)) ->
  Iterate size_bits self centroids newCentroids counts s = OK r ->
  list_sum (r_counts r) = n_cols (dataset self) /\
  (forall p, In p (cols (dataset self)) ->
     closest_cluster self centroids p < n_cols centroids) /\
  (forall i, i < n_cols centroids ->
     nth i (r_counts r) 0 =
     length (cluster_points self centroids i (cols (dataset self)))).
Proof.
  intros Hs Hr.
  destruct (Iterate_OK_inv size_bits self centroids _ _ _ r Hs Hr)
    as [Hacc ->].
  pose proof (accepted_selected self centroids _ Hacc) as Hsel.
  cbn [expected r_counts]. split; [|split]; trivial.
  - apply cluster_sizes_sum; trivial.
  - intros i Hi.
    apply (nth_map_seq
             (fun i => length (cluster_points self centroids i
                                 (cols (dataset self))))); trivial.
Qed.

Lemma Iterate_counts_sum_witness :
  list_sum (r_counts Scenario.result1) = n_cols (dataset Scenario.kmeans1) /\
  (forall p, In p (cols (dataset Scenario.kmeans1)) ->
     closest_cluster Scenario.kmeans1 Scenario.centroids1 p
       < n_cols Scenario.centroids1) /\
  (forall i, i < n_cols Scenario.centroids1 ->
     nth i (r_counts Scenario.result1) 0 =
     length (cluster_points Scenario.kmeans1 Scenario.centroids1 i
               (cols (dataset Scenario.kmeans1)))).
Proof.
  exact (Iterate_counts_sum 64 Scenario.kmeans1 Scenario.centroids1
           Scenario.buffer [] Scenario.two_workers Scenario.result1
           two_workers_ok scenario1_run).
Defined.



(** C5, as the code has it.  [Iterate] validates nothing up front.  With no
    centroid and at least one point, the buffers are reset and the parallel
    region then fails on its assertion; when a point has not as many rows
    as the centroids, the parallel region fails on the assertion or on the
    size check of the addition.  In both cases [Iterate] returns nothing. *)
Theorem Iterate_unchecked_configuration (size_bits : N)
  (self : ParallelNaiveKMeans)
  (centroids : mat) (newCentroids : mat) (counts : list nat) (s : schedule) :
  schedule_ok s (n_cols (dataset self)) ->
  let shared := (mat_zeros newCentroids (n_rows centroids) (n_cols centroids),
                 counts_zeros counts (n_cols centroids)) in
  (n_cols centroids = 0 -> n_cols (dataset self) <> 0 ->
   parallel_region self centroids s shared = Err AssertFailed /\
   Iterate size_bits self centroids newCentroids counts s = Err AssertFailed) /\
  ((exists p, In p (cols (dataset self)) /\ length p <> n_rows centroids) ->
   exists e, loop_error e /\
     parallel_region self centroids s shared = Err e /\
     Iterate size_bits self centroids newCentroids counts s = Err e).
Proof.
  intros Hs shared. destruct (schedule_ok_points self s Hs) as [Hin Hperm].
  split.
  - intros HK HN.
    assert (E : parallel_region self centroids s shared = Err AssertFailed).
    { subst shared. unfold mat_zeros, counts_zeros, zeros_mat. rewrite HK.
      apply parallel_region_no_centroid; trivial.
      intros Hnil. apply Permutation_length in Hs.
      rewrite Hnil, length_seq in Hs. simpl in Hs. congruence. }
    split; trivial. unfold Iterate. fold shared. rewrite E. reflexivity.
  - intros (p & Hp & Hlen).
    destruct (parallel_region_spec self centroids s Hs) as [_ Hko].
    destruct Hko as (e & He & Hl).
    { destruct (forallb (accepted self centroids) (cols (dataset self))) eqn:F;
        trivial.
      rewrite forallb_forall in F. apply F in Hp. unfold accepted in Hp.
      apply andb_true_iff in Hp as [_ Hp]. apply Nat.eqb_eq in Hp. congruence. }
    exists e. repeat split; trivial.
    unfold Iterate, mat_zeros, counts_zeros. rewrite He. reflexivity.
Qed.

Lemma Iterate_unchecked_configuration_witness :
  (parallel_region Scenario.kmeans4 Scenario.no_centroid [[0]]
     (mat_zeros Scenario.buffer (n_rows Scenario.no_centroid)
        (n_cols Scenario.no_centroid),
      counts_zeros [] (n_cols Scenario.no_centroid)) = Err AssertFailed /\
   Iterate 64 Scenario.kmeans4 Scenario.no_centroid Scenario.buffer [] [[0]] =
     Err AssertFailed) /\
  (exists e, loop_error e /\
     parallel_region Scenario.kmeans4 Scenario.centroids_2rows [[0]]
       (mat_zeros Scenario.buffer (n_rows Scenario.centroids_2rows)
          (n_cols Scenario.centroids_2rows),
        counts_zeros [] (n_cols Scenario.centroids_2rows)) = Err e /\
     Iterate 64 Scenario.kmeans4 Scenario.centroids_2rows Scenario.buffer []
       [[0]] = Err e).
Proof.
  split.
  - apply (proj1 (Iterate_unchecked_configuration 64 Scenario.kmeans4
                    Scenario.no_centroid Scenario.buffer [] [[0]]
                    one_worker_ok)).
    + reflexivity.
    + run. discriminate.
  - apply (proj2 (Iterate_unchecked_configuration 64 Scenario.kmeans4
                    Scenario.centroids_2rows Scenario.buffer [] [[0]]
                    one_worker_ok)).
    exists (Scenario.v1 0). split.
    + left. reflexivity.
    + run. discriminate.
Defined.

(** The claim C5 fails: with no centroid and one point, the call is not
    rejected up front but fails on the assertion of the parallel region;
    with no centroid and no point, it is not rejected at all. *)
Lemma no_centroid_is_not_rejected :
  parallel_region Scenario.kmeans4 Scenario.no_centroid [[0]]
    (mat_zeros Scenario.buffer (n_rows Scenario.no_centroid)
       (n_cols Scenario.no_centroid),
     counts_zeros [] (n_cols Scenario.no_centroid)) = Err AssertFailed /\
  Iterate 64 Scenario.kmeans4 Scenario.no_centroid Scenario.buffer [] [[0]] =
    Err AssertFailed /\
  Iterate 64 Scenario.kmeans_empty Scenario.no_centroid Scenario.buffer []
    [[]] =
    OK Scenario.result_empty.
Proof.
  split; [reflexivity | split; [reflexivity | exact scenario_empty_run]].
Qed.



(** C7, as the code has it.  A call that returns adds [K * N + K] to the
    counter in [size_t] arithmetic, that is modulo 2^bits; as long as the
    sum fits, the counter grows by exactly [K * N + K]. *)
Theorem Iterate_distance_calculations (size_bits : N)
  (self : ParallelNaiveKMeans)
  (centroids : mat) (newCentroids : mat) (counts : list nat) (s : schedule)
  (r : IterateResult) :
  Iterate size_bits self centroids newCentroids counts s = OK r ->
  let K := N.of_nat (n_cols centroids) in
  let n := N.of_nat (n_cols (dataset self)) in
  let before := distanceCalculations self in
  let after := distanceCalculations (r_self r) in
  (after = (before + (K * n + K)) mod 2 ^ size_bits)%N /\
  ((before + (K * n + K) < 2 ^ size_bits)%N ->
   (after = before + (K * n + K) /\ before <= after)%N).
Proof.
  intros Hr K n before after.
  assert (E : (after = (before + (K * n + K)) mod 2 ^ size_bits)%N).
  { unfold Iterate in Hr.
    destruct (parallel_region _ _ _ _) as [acc|]; simpl in Hr; [|discriminate].
    destruct (normalize _ _ _) as [nc|]; simpl in Hr; [|discriminate].
    destruct (distortion_sum _ _ _) as [cNorm|]; simpl in Hr; [|discriminate].
    injection Hr as <-. subst after. cbn [r_self distanceCalculations].
    unfold size_add, size_mul. fold K n before.
    rewrite N.Div0.add_mod_idemp_r, N.Div0.add_mod_idemp_l.
    f_equal. lia. }
  split; trivial. intros Hfit. rewrite E, N.mod_small by trivial. lia.
Qed.

Lemma Iterate_distance_calculations_witness :
  (distanceCalculations (r_self Scenario.result1) =
   distanceCalculations Scenario.kmeans1 + (2 * 4 + 2) /\
   distanceCalculations Scenario.kmeans1 <=
   distanceCalculations (r_self Scenario.result1))%N.
Proof.
  apply (proj2 (Iterate_distance_calculations 64 Scenario.kmeans1
                  Scenario.centroids1 Scenario.buffer [] Scenario.two_workers
                  Scenario.result1 scenario1_run)).
  reflexivity.
Defined.

(** The claim C7 fails at the end of the range of [size_t]: from the
    counter 2^64 - 1, a call with one point and one centroid returns with
    the counter 1. *)
Lemma counter_wraps_around :
  Iterate 64 Scenario.kmeans_full Scenario.centroids4 Scenario.buffer [] [[0]] =
    OK Scenario.result_full /\
  distanceCalculations Scenario.kmeans_full = (2 ^ 64 - 1)%N /\
  distanceCalculations (r_self Scenario.result_full) = 1%N /\
  (distanceCalculations (r_self Scenario.result_full) <
   distanceCalculations Scenario.kmeans_full)%N.
Proof.
  split; [exact scenario_full_run | repeat split].
Qed.

(** C8, as the code has it.  With at least one centroid and distances that
    are neither not-a-number nor +infinity, the scan selects the index of
    a centroid and the loop body does not fail on its assertion. *)
Theorem scan_selects_a_centroid (self : ParallelNaiveKMeans) (centroids : mat)
  (p : vec) :
  cols centroids <> [] ->
  (forall c, In c (cols centroids) ->
     Evaluate (metric self) p c <> NaN /\ Evaluate (metric self) p c <> PInf) ->
  closest_cluster self centroids p < n_cols centroids /\
  forall local, assign_point self centroids local p <> Err AssertFailed.
Proof.
  intros Hk Hm.
  pose proof (closest_cluster_selects self centroids p Hk Hm) as Hlt.
  split; trivial. intros local. apply assign_point_selected; trivial.
Qed.

Lemma scan_selects_a_centroid_witness :
  closest_cluster Scenario.kmeans1 Scenario.centroids1 (Scenario.v1 1)
    < n_cols Scenario.centroids1 /\
  forall local,
    assign_point Scenario.kmeans1 Scenario.centroids1 local (Scenario.v1 1)
      <> Err AssertFailed.
Proof.
  apply (scan_selects_a_centroid Scenario.kmeans1 Scenario.centroids1
           (Scenario.v1 1)).
  - discriminate.
  - intros c [<- | [<- | []]]; run; split; discriminate.
Defined.

(** The claim C8 fails for a distance that is +infinity: it is not
    not-a-number, it does not compare below the initial +infinity, and no
    centroid is selected.  So it is with a distance that has overflowed,
    and with the Manhattan distance of a point that has an infinite
    coordinate. *)
Lemma infinite_distance_selects_nothing :
  (cols Scenario.centroids4 <> [] /\
   (forall a b, Evaluate Scenario.overflowed a b <> NaN) /\
   closest_cluster Scenario.kmeans_overflowed Scenario.centroids4
     (Scenario.v1 0) = n_cols Scenario.centroids4 /\
   Iterate 64 Scenario.kmeans_overflowed Scenario.centroids4 Scenario.buffer []
     [[0]] = Err AssertFailed) /\
  ((forall c, In c (cols Scenario.centroids4) ->
      Evaluate Scenario.manhattan [PInf] c <> NaN) /\
   closest_cluster Scenario.kmeans_inf Scenario.centroids4 [PInf] =
     n_cols Scenario.centroids4 /\
   Iterate 64 Scenario.kmeans_inf Scenario.centroids4 Scenario.buffer []
     [[0]] = Err AssertFailed).
Proof.
  split; repeat split; try discriminate.
  intros c [<- | []]. discriminate.
Qed.

(** C9.  Under every schedule of the loop (contiguous chunks, one per
    worker, are one), [Iterate] returns what the sequential scan of all
    the points returns: the same new centroids, counts, distortion and
    counter, or nothing when the sequential scan returns nothing. *)
Theorem Iterate_schedule_independent (size_bits : N)
  (self : ParallelNaiveKMeans) (centroids : mat) (newCentroids : mat)
  (counts : list nat) (s : schedule) (r : IterateResult) :
  schedule_ok s (n_cols (dataset self)) ->
  (Iterate size_bits self centroids newCentroids counts s = OK r <->
   sequential_Iterate size_bits self centroids = OK r).
Proof.
  intros Hs. split; intros Hr.
  - destruct (Iterate_OK_inv size_bits self centroids _ _ _ r Hs Hr)
      as [Hacc ->].
    apply sequential_Iterate_spec; trivial.
  - destruct (sequential_Iterate_OK_inv size_bits self centroids r Hr)
      as [Hacc ->].
    apply Iterate_spec; trivial.
Qed.

Lemma Iterate_schedule_independent_witness :
  schedule_ok (chunks 0 [1; 3]) (n_cols (dataset Scenario.kmeans1)) /\
  sequential_Iterate 64 Scenario.kmeans1 Scenario.centroids1 =
    OK Scenario.result1 /\
  Iterate 64 Scenario.kmeans1 Scenario.centroids1 Scenario.buffer []
    (chunks 0 [1; 3]) = OK Scenario.result1.
Proof.
  assert (Hseq : sequential_Iterate 64 Scenario.kmeans1 Scenario.centroids1 =
                 OK Scenario.result1).
  { apply (proj1 (Iterate_schedule_independent 64 Scenario.kmeans1
                    Scenario.centroids1 Scenario.buffer []
                    Scenario.two_workers Scenario.result1 two_workers_ok)).
    exact scenario1_run. }
  split; [exact (chunks_ok [1; 3]) | split; [exact Hseq|]].
  apply (proj2 (Iterate_schedule_independent 64 Scenario.kmeans1
                  Scenario.centroids1 Scenario.buffer []
                  (chunks 0 [1; 3]) Scenario.result1 (chunks_ok [1; 3]))).
  exact Hseq.
Defined.

(** C10.  The content and the shape of the buffers that the caller passes
    do not reach the result, and the buffers that come back have the shape
    of the centroids. *)
Theorem Iterate_ignores_buffers (size_bits : N)
  (self : ParallelNaiveKMeans) (centroids : mat)
  (newCentroids1 newCentroids2 : mat) (counts1 counts2 : list nat)
  (s : schedule) :
  Iterate size_bits self centroids newCentroids1 counts1 s =
  Iterate size_bits self centroids newCentroids2 counts2 s /\
  (mat_zeros newCentroids1 (n_rows centroids) (n_cols centroids),
   counts_zeros counts1 (n_cols centroids)) =
  (mat_zeros newCentroids2 (n_rows centroids) (n_cols centroids),
   counts_zeros counts2 (n_cols centroids)) /\
  forall r,
    schedule_ok s (n_cols (dataset self)) ->
    Iterate size_bits self centroids newCentroids1 counts1 s = OK r ->
    n_rows (r_newCentroids r) = n_rows centroids /\
    n_cols (r_newCentroids r) = n_cols centroids /\
    length (r_counts r) = n_cols centroids.
Proof.
  split; [reflexivity | split; [reflexivity|]].
  intros r Hs Hr.
  destruct (Iterate_OK_inv size_bits self centroids _ _ _ r Hs Hr) as [_ ->].
  apply expected_shape.
Qed.

Lemma Iterate_ignores_buffers_witness :
  Iterate 64 Scenario.kmeans1 Scenario.centroids1 Scenario.stale_buffer
    [7; 7; 7] Scenario.two_workers = OK Scenario.result1 /\
  n_rows (r_newCentroids Scenario.result1) = n_rows Scenario.centroids1 /\
  n_cols (r_newCentroids Scenario.result1) = n_cols Scenario.centroids1 /\
  length (r_counts Scenario.result1) = n_cols Scenario.centroids1.
Proof.
  destruct (Iterate_ignores_buffers 64 Scenario.kmeans1 Scenario.centroids1
              Scenario.stale_buffer Scenario.buffer [7; 7; 7] []
              Scenario.two_workers) as (E & _ & Hshape).
  rewrite E. split; [exact scenario1_run|].
  apply Hshape; [exact two_workers_ok|].
  rewrite E. exact scenario1_run.
Defined.

(** * Further properties of the code *)

(** ** What [Iterate] reads of the object *)

Lemma foldM_ext {A S : Type} (f g : S -> A -> result S) (l : list A) :
  (forall s x, f s x = g s x) -> forall s, foldM f l s = foldM g l s.
Proof.
  intros H. induction l as [|x l IH]; intros s; simpl; trivial.
  rewrite H. destruct (g s x); simpl; auto.
Qed.

Section SameMetric.

Variables self self' : ParallelNaiveKMeans.
Variable centroids : mat.
Hypothesis Hmetric : metric self = metric self'.

Lemma scan_same_metric (p : vec) (cs : list vec) :
  forall j m c, scan self p cs j m c = scan self' p cs j m c.
Proof.
  induction cs as [|x cs IH]; intros j m c; simpl; trivial.
  rewrite Hmetric, !IH. trivial.
Qed.

Lemma closest_cluster_same_metric (p : vec) :
  closest_cluster self centroids p = closest_cluster self' centroids p.
Proof. unfold closest_cluster. rewrite scan_same_metric. trivial. Qed.

Lemma assign_point_same_metric (local : mat * list nat) (p : vec) :
  assign_point self centroids local p = assign_point self' centroids local p.
Proof. unfold assign_point. rewrite closest_cluster_same_metric. trivial. Qed.

Lemma accepted_same_metric (p : vec) :
  accepted self centroids p = accepted self' centroids p.
Proof. unfold accepted. rewrite closest_cluster_same_metric. trivial. Qed.

Lemma cluster_points_same_metric (i : nat) (ps : list vec) :
  cluster_points self centroids i ps = cluster_points self' centroids i ps.
Proof.
  unfold cluster_points. apply filter_ext. intros p. unfold assigned.
  rewrite closest_cluster_same_metric. trivial.
Qed.

Lemma distortion_sum_same_metric (nc : mat) :
  distortion_sum self centroids nc = distortion_sum self' centroids nc.
Proof.
  unfold distortion_sum. apply foldM_ext. intros cNorm i.
  unfold distortion_step. rewrite Hmetric. trivial.
Qed.

Lemma parallel_region_same_metric (s : schedule) (shared : mat * list nat) :
  dataset self = dataset self' ->
  parallel_region self centroids s shared =
  parallel_region self' centroids s shared.
Proof.
  intros Hds. unfold parallel_region. apply foldM_ext. intros sh chunk.
  replace (worker self' centroids chunk) with (worker self centroids chunk);
    trivial.
  unfold worker. apply foldM_ext. intros local i.
  rewrite Hds. destruct (col (dataset self') i); simpl; trivial.
  apply assign_point_same_metric.
Qed.

(** The new centroids do not depend on the order of the points. *)
Lemma new_centroid_perm (i : nat) :
  Permutation (cols (dataset self)) (cols (dataset self')) ->
  new_centroid self centroids i = new_centroid self' centroids i.
Proof.
  intros Hp. unfold new_centroid, normalized.
  rewrite <- !cluster_points_same_metric.
  pose proof (filter_perm (assigned self centroids i) _ _ Hp) as Hf.
  fold (cluster_points self centroids i (cols (dataset self))) in Hf.
  fold (cluster_points self centroids i (cols (dataset self'))) in Hf.
  rewrite (vsum_perm (n_rows centroids) _ _ Hf).
  rewrite (Permutation_length Hf). trivial.
Qed.

End SameMetric.

(** X1.  The counter is never read: two objects with the same dataset and
    the same metric, whatever their counters, give the same new centroids,
    counts and distortion, or fail with the same error. *)
Theorem Iterate_counter_not_read (size_bits : N)
  (self self' : ParallelNaiveKMeans) (centroids : mat)
  (newCentroids : mat) (counts : list nat) (s : schedule) :
  dataset self = dataset self' ->
  metric self = metric self' ->
  match Iterate size_bits self centroids newCentroids counts s,
        Iterate size_bits self' centroids newCentroids counts s with
  | OK r, OK r' =>
      r_newCentroids r = r_newCentroids r' /\
      r_counts r = r_counts r' /\
      r_distortion r = r_distortion r'
  | Err e, Err e' => e = e'
  | _, _ => False
  end.
Proof.
  intros Hds Hm. unfold Iterate.
  rewrite <- (parallel_region_same_metric self self' centroids Hm s _ Hds).
  destruct (parallel_region self centroids s _) as [acc|e]; simpl; trivial.
  destruct (normalize centroids (snd acc) (fst acc)) as [nc|e]; simpl; trivial.
  rewrite <- (distortion_sum_same_metric self self' centroids Hm nc).
  destruct (distortion_sum self centroids nc) as [cNorm|e]; simpl; auto.
Qed.

Lemma Iterate_counter_not_read_witness :
  exists r',
    Iterate 64 Edge.kmeans_counted Scenario.centroids1 Scenario.buffer []
      Scenario.two_workers = OK r' /\
    r_newCentroids Scenario.result1 = r_newCentroids r' /\
    r_counts Scenario.result1 = r_counts r' /\
    r_distortion Scenario.result1 = r_distortion r'.
Proof.
  pose proof (Iterate_counter_not_read 64 Scenario.kmeans1 Edge.kmeans_counted
                Scenario.centroids1 Scenario.buffer [] Scenario.two_workers
                eq_refl eq_refl) as H.
  rewrite scenario1_run in H.
  destruct (Iterate 64 Edge.kmeans_counted Scenario.centroids1
              Scenario.buffer [] Scenario.two_workers) as [r'|e];
    [|contradiction].
  exists r'. split; trivial.
Defined.

(** X2.  The order of the points in the dataset does not matter: with
    the points in another order, and under any schedules, [Iterate]
    returns the same new centroids, counts and distortion. *)
Theorem Iterate_point_order (size_bits : N)
  (self self' : ParallelNaiveKMeans) (centroids : mat)
  (newCentroids newCentroids' : mat) (counts counts' : list nat)
  (s s' : schedule) (r : IterateResult) :
  metric self = metric self' ->
  Permutation (cols (dataset self)) (cols (dataset self')) ->
  schedule_ok s (n_cols (dataset self)) ->
  schedule_ok s' (n_cols (dataset self')) ->
  Iterate size_bits self centroids newCentroids counts s = OK r ->
  exists r',
    Iterate size_bits self' centroids newCentroids' counts' s' = OK r' /\
    r_newCentroids r' = r_newCentroids r /\
    r_counts r' = r_counts r /\
    r_distortion r' = r_distortion r.
Proof.
  intros Hm Hp Hs Hs' Hr.
  destruct (Iterate_OK_inv size_bits self centroids _ _ _ r Hs Hr)
    as [Hacc ->].
  exists (expected size_bits self' centroids).
  assert (Hnew : forall i, new_centroid self' centroids i =
                           new_centroid self centroids i).
  { intros i. symmetry. apply new_centroid_perm; trivial. }
  split; [|split; [|split]].
  - apply Iterate_spec; trivial.
    apply forallb_forall. intros p Hin.
    apply (Permutation_in _ (Permutation_sym Hp)) in Hin.
    rewrite <- (accepted_same_metric self self' centroids Hm).
    rewrite forallb_forall in Hacc. auto.
  - cbn [expected r_newCentroids]. f_equal. apply map_ext. exact Hnew.
  - cbn [expected r_counts]. apply map_ext. intros i.
    rewrite <- (cluster_points_same_metric self self' centroids Hm).
    symmetry. apply Permutation_length, filter_perm; trivial.
  - cbn [expected r_distortion]. f_equal. unfold squared_displacements.
    apply fold_left_ext_in. intros a i _. rewrite Hm, Hnew. trivial.
Qed.

Lemma Iterate_point_order_witness :
  exists r',
    Iterate 64 Edge.kmeans_permuted Scenario.centroids1 Scenario.buffer []
      [[3]; [0; 2]; [1]] = OK r' /\
    r_newCentroids r' = r_newCentroids Scenario.result1 /\
    r_counts r' = r_counts Scenario.result1 /\
    r_distortion r' = r_distortion Scenario.result1.
Proof.
  apply (Iterate_point_order 64 Scenario.kmeans1 Edge.kmeans_permuted
           Scenario.centroids1 Scenario.buffer Scenario.buffer [] []
           Scenario.two_workers [[3]; [0; 2]; [1]] Scenario.result1).
  - reflexivity.
  - apply Permutation_sym.
    change (Permutation
              ([Scenario.v1 11] ++ Scenario.v1 0 :: [Scenario.v1 10] ++
               [Scenario.v1 1])
              (Scenario.v1 0 :: Scenario.v1 1 :: [Scenario.v1 10] ++
               [Scenario.v1 11])).
    apply Permutation_sym, Permutation_cons_app. simpl.
    apply Permutation_cons_app with (l1 := [Scenario.v1 11; Scenario.v1 10])
                                    (l2 := []).
    simpl. apply perm_swap.
  - exact two_workers_ok.
  - unfold schedule_ok. simpl.
    apply Permutation_sym.
    apply (Permutation_cons_app [3] [2; 1]). simpl.
    apply (Permutation_cons_app [3; 2] []). simpl.
    apply perm_swap.
  - exact scenario1_run.
Defined.

(** ** When [Iterate] returns *)

(** The centroid that the scan selects: it compares below +infinity, and
    no centroid of a lower index is at the same distance. *)
Lemma closest_cluster_first (self : ParallelNaiveKMeans) (centroids : mat)
  (p : vec) :
  closest_cluster self centroids p < n_cols centroids ->
  exists c,
    nth_error (cols centroids) (closest_cluster self centroids p) = Some c /\
    Double.lt (Evaluate (metric self) p c) PInf = true /\
    forall j c', j < closest_cluster self centroids p ->
      nth_error (cols centroids) j = Some c' ->
      Evaluate (metric self) p c' <> Evaluate (metric self) p c.
Proof.
  unfold closest_cluster.
  destruct (scan_spec self p (cols centroids) 0 PInf (n_cols centroids))
    as (_ & _ & [[Hc _] | (k & x & Hk & Hc & Hm & Hl & He)]); intros Hi.
  - lia.
  - exists x. rewrite Hc, <- Hm. cbn [Nat.add]. repeat split; trivial.
Qed.

(** A centroid is selected exactly when some distance compares below
    +infinity. *)
Lemma closest_cluster_selects_iff (self : ParallelNaiveKMeans)
  (centroids : mat) (p : vec) :
  closest_cluster self centroids p < n_cols centroids <->
  exists c, In c (cols centroids) /\
            Double.lt (Evaluate (metric self) p c) PInf = true.
Proof.
  split.
  - intros H. destruct (closest_cluster_first self centroids p H)
      as (c & Hc & Hlt & _).
    exists c. split; trivial. eapply nth_error_In; eauto.
  - intros (c & Hin & Hlt).
    pose proof (closest_cluster_le self centroids p) as Hle.
    destruct (Nat.eq_dec (closest_cluster self centroids p) (n_cols centroids))
      as [E | E]; [|lia].
    rewrite (proj1 (closest_cluster_sentinel self centroids p) E c Hin) in Hlt.
    discriminate.
Qed.

(** X3.  Under a schedule of the loop, [Iterate] returns a result exactly
    when every point has as many rows as the centroids and is at a
    distance below +infinity of some centroid; when it does not, it fails
    on the assertion or on the size check of the addition, never on a
    bounds check. *)
Theorem Iterate_returns_iff (size_bits : N)
  (self : ParallelNaiveKMeans) (centroids : mat)
  (newCentroids : mat) (counts : list nat) (s : schedule) :
  schedule_ok s (n_cols (dataset self)) ->
  ((exists r, Iterate size_bits self centroids newCentroids counts s = OK r)
   <->
   (forall p, In p (cols (dataset self)) ->
      length p = n_rows centroids /\
      exists c, In c (cols centroids) /\
                Double.lt (Evaluate (metric self) p c) PInf = true)) /\
  (forall e, Iterate size_bits self centroids newCentroids counts s = Err e ->
     e = AssertFailed \/ e = IncompatibleDims).
Proof.
  intros Hs.
  destruct (Iterate_spec size_bits self centroids newCentroids counts s Hs)
    as [Hok Hko].
  assert (Hacc : forallb (accepted self centroids) (cols (dataset self)) = true
                 <-> (forall p, In p (cols (dataset self)) ->
                        length p = n_rows centroids /\
                        exists c, In c (cols centroids) /\
                          Double.lt (Evaluate (metric self) p c) PInf = true)).
  { rewrite forallb_forall. split; intros H p Hp; specialize (H p Hp).
    - unfold accepted in H. apply andb_true_iff in H as [H1 H2].
      apply Nat.ltb_lt in H1. apply Nat.eqb_eq in H2.
      split; trivial. apply closest_cluster_selects_iff; trivial.
    - destruct H as [H2 H1]. unfold accepted. apply andb_true_iff. split.
      + apply Nat.ltb_lt. apply closest_cluster_selects_iff; trivial.
      + apply Nat.eqb_eq; trivial. }
  split; [split|].
  - intros [r Hr]. apply Hacc.
    apply (Iterate_OK_inv size_bits self centroids _ _ _ r Hs Hr).
  - intros H. eexists. apply Hok. apply Hacc; trivial.
  - intros e He.
    destruct (forallb (accepted self centroids) (cols (dataset self))).
    + rewrite (Hok eq_refl) in He. discriminate.
    + destruct (Hko eq_refl) as (e' & He' & Hl).
      assert (e = e') by congruence. subst e'. exact Hl.
Qed.

Lemma Iterate_returns_iff_witness :
  ((exists r, Iterate 64 Scenario.kmeans1 Scenario.centroids1 Scenario.buffer
                [] Scenario.two_workers = OK r)
   <->
   (forall p, In p (cols (dataset Scenario.kmeans1)) ->
      length p = n_rows Scenario.centroids1 /\
      exists c, In c (cols Scenario.centroids1) /\
        Double.lt (Evaluate (metric Scenario.kmeans1) p c) PInf = true)) /\
  (forall e, Iterate 64 Scenario.kmeans1 Scenario.centroids1 Scenario.buffer
               [] Scenario.two_workers = Err e ->
     e = AssertFailed \/ e = IncompatibleDims).
Proof.
  exact (Iterate_returns_iff 64 Scenario.kmeans1 Scenario.centroids1
           Scenario.buffer [] Scenario.two_workers two_workers_ok).
Defined.

(** X4.  A centroid that repeats a centroid of a lower index gets no
    point: when [Iterate] returns, its count is 0 and its column is the
    zero vector. *)
Theorem duplicate_centroid_stays_empty (size_bits : N)
  (self : ParallelNaiveKMeans) (centroids : mat)
  (newCentroids : mat) (counts : list nat) (s : schedule) (r : IterateResult)
  (i j : nat) (c : vec) :
  schedule_ok s (n_cols (dataset self)) ->
  Iterate size_bits self centroids newCentroids counts s = OK r ->
  i < j ->
  nth_error (cols centroids) i = Some c ->
  nth_error (cols centroids) j = Some c ->
  nth j (r_counts r) 0 = 0 /\
  nth_error (cols (r_newCentroids r)) j =
    Some (repeat Double.zero (n_rows centroids)).
Proof.
  intros Hs Hr Hij Hi Hj.
  destruct (Iterate_OK_inv size_bits self centroids _ _ _ r Hs Hr)
    as [_ ->].
  assert (HjK : j < n_cols centroids) by (eapply nth_error_Some_lt; eauto).
  assert (Hnone : forall ps, cluster_points self centroids j ps = []).
  { intros ps. unfold cluster_points.
    induction ps as [|p ps IH]; simpl; trivial.
    unfold assigned at 1.
    destruct (Nat.eqb_spec (closest_cluster self centroids p) j) as [E|];
      trivial.
    exfalso.
    assert (Hlt : closest_cluster self centroids p < n_cols centroids)
      by lia.
    destruct (closest_cluster_first self centroids p Hlt)
      as (c' & Hc' & _ & Hfirst).
    rewrite E, Hj in Hc'. injection Hc' as <-.
    apply (Hfirst i c); [lia | trivial | trivial]. }
  cbn [expected r_counts r_newCentroids cols].
  rewrite nth_map_seq, nth_error_map_seq by trivial.
  unfold new_centroid, normalized. rewrite Hnone. auto.
Qed.

Lemma duplicate_centroid_stays_empty_witness :
  nth 1 (r_counts (expected 64 Scenario.kmeans1 Edge.duplicate)) 0 = 0 /\
  nth_error
    (cols (r_newCentroids (expected 64 Scenario.kmeans1 Edge.duplicate))) 1 =
    Some (repeat Double.zero (n_rows Edge.duplicate)).
Proof.
  apply (duplicate_centroid_stays_empty 64 Scenario.kmeans1 Edge.duplicate
           Scenario.buffer [] Scenario.two_workers _ 0 1 (Scenario.v1 0)).
  - exact two_workers_ok.
  - apply Iterate_returns.
    + exact two_workers_ok.
    + discriminate.
    + intros p [<- | [<- | [<- | [<- | []]]]]; reflexivity.
    + intros p c [<- | [<- | [<- | [<- | []]]]] [<- | [<- | []]];
        split; discriminate.
  - lia.
  - reflexivity.
  - reflexivity.
Defined.

(** ** Finite data *)

Lemma map2_Forall {A B C : Type} (P : A -> Prop) (Q : B -> Prop)
  (T : C -> Prop) (f : A -> B -> C) :
  (forall x y, P x -> Q y -> T (f x y)) ->
  forall la lb, Forall P la -> Forall Q lb -> Forall T (map2 f la lb).
Proof.
  intros H la. induction la as [|a la IH]; intros [|b lb] Ha Hb; simpl;
    try constructor.
  - inversion Ha; inversion Hb; subst. auto.
  - inversion Ha; inversion Hb; subst. auto.
Qed.

Lemma in_range_add (a b lo hi : R) (x y : double) :
  in_range a b x -> in_range lo hi y ->
  in_range (a + lo) (b + hi) (Double.add x y).
Proof. destruct x, y; simpl; try tauto. lra. Qed.

Lemma in_range_eq (a b a' b' : R) (x : double) :
  a = a' -> b = b' -> in_range a b x -> in_range a' b' x.
Proof. intros -> ->. trivial. Qed.

(** The sum of [n] vectors of numbers between [lo] and [hi] holds numbers
    between [n * lo] and [n * hi]. *)
Lemma fold_vadd_range (lo hi : R) (ps : list vec) :
  Forall (Forall (in_range lo hi)) ps ->
  forall a b z, Forall (in_range a b) z ->
    Forall (in_range (a + INR (length ps) * lo) (b + INR (length ps) * hi))
           (fold_left (map2 Double.add) ps z).
Proof.
  induction 1 as [|p ps Hp _ IH]; intros a b z Hz.
  - simpl. eapply Forall_impl; [|exact Hz].
    intros x. apply in_range_eq; lra.
  - cbn [fold_left].
    assert (Hstep : Forall (in_range (a + lo) (b + hi))
                           (map2 Double.add z p)).
    { apply (map2_Forall (in_range a b) (in_range lo hi)); trivial.
      intros x y. apply in_range_add. }
    specialize (IH _ _ _ Hstep).
    eapply Forall_impl; [|exact IH].
    intros x. change (length (p :: ps)) with (S (length ps)).
    rewrite S_INR. apply in_range_eq; unfold vec; ring.
Qed.

Lemma in_range_div_count (lo hi : R) (n : nat) (x : double) :
  0 < n ->
  in_range (0 + INR n * lo) (0 + INR n * hi) x ->
  in_range lo hi (Double.div_count x n).
Proof.
  intros Hn. destruct x as [r| | |]; simpl; trivial.
  assert (Hpos : (0 < INR n)%R) by (apply lt_0_INR; trivial).
  intros [H1 H2].
  assert (E : (r = r / INR n * INR n)%R) by (field; lra).
  split; apply Rmult_le_reg_r with (INR n); trivial; rewrite <- E; lra.
Qed.

(** X5.  In exact arithmetic, finite data gives finite centroids inside
    the range of the data: when every coordinate of every point is a number
    between [lo] and [hi], every coordinate of the new centroid of a cluster
    that has a point is a number between [lo] and [hi].  This is a property
    of the exact sums and quotients only: on a machine a sum overflows and a
    quotient rounds. *)
Theorem Iterate_centroid_in_range (size_bits : N)
  (self : ParallelNaiveKMeans) (centroids : mat)
  (newCentroids : mat) (counts : list nat) (s : schedule) (r : IterateResult)
  (lo hi : R) (i : nat) :
  schedule_ok s (n_cols (dataset self)) ->
  Fp.Iterate Fp.exact size_bits self centroids newCentroids counts s = OK r ->
  Forall (Forall (in_range lo hi)) (cols (dataset self)) ->
  i < n_cols centroids ->
  0 < nth i (r_counts r) 0 ->
  exists column,
    nth_error (cols (r_newCentroids r)) i = Some column /\
    length column = n_rows centroids /\
    Forall (in_range lo hi) column.
Proof.
  intros Hs Hr Hdata Hi Hc.
  destruct (Iterate_OK_inv size_bits self centroids _ _ _ r Hs Hr)
    as [Hacc ->].
  cbn [expected r_counts r_newCentroids cols] in *.
  rewrite nth_map_seq in Hc by trivial.
  rewrite nth_error_map_seq by trivial.
  eexists. split; [reflexivity|].
  unfold new_centroid, normalized.
  set (ps := cluster_points self centroids i (cols (dataset self))) in *.
  destruct (Nat.eqb_spec (length ps) 0); [lia|].
  assert (Hrows : Forall (fun p => length p = n_rows centroids) ps).
  { apply cluster_points_rows.
    apply (accepted_rows self centroids); trivial. }
  assert (Hps : Forall (Forall (in_range lo hi)) ps).
  { rewrite Forall_forall in *. intros p Hp. apply Hdata.
    apply filter_In in Hp. tauto. }
  unfold vec_div_assign. split.
  - rewrite length_map. apply vsum_length; trivial.
  - apply Forall_map.
    assert (Hz : Forall (in_range 0 0) (repeat Double.zero (n_rows centroids))).
    { apply Forall_forall. intros x Hx. apply repeat_spec in Hx. subst x.
      simpl. lra. }
    pose proof (fold_vadd_range lo hi ps Hps 0%R 0%R _ Hz) as Hsum.
    eapply Forall_impl; [|exact Hsum].
    intros x. apply in_range_div_count. trivial.
Qed.

Lemma Iterate_centroid_in_range_witness :
  exists column,
    nth_error (cols (r_newCentroids Scenario.result1)) 1 = Some column /\
    length column = n_rows Scenario.centroids1 /\
    Forall (in_range 0 11) column.
Proof.
  apply (Iterate_centroid_in_range 64 Scenario.kmeans1 Scenario.centroids1
           Scenario.buffer [] Scenario.two_workers Scenario.result1).
  - exact two_workers_ok.
  - exact scenario1_run.
  - repeat constructor; simpl; lra.
  - run. lia.
  - run. lia.
Defined.

(** ** The distortion of centroids that are not numbers *)

Lemma Iterate_distortion_formula (size_bits : N)
  (self : ParallelNaiveKMeans) (centroids : mat)
  (newCentroids : mat) (counts : list nat) (s : schedule) (r : IterateResult) :
  schedule_ok s (n_cols (dataset self)) ->
  Iterate size_bits self centroids newCentroids counts s = OK r ->
  r_distortion r =
  Double.sqrt (squared_displacements self centroids
                 (fun i => nth i (cols (r_newCentroids r)) ([] : vec))).
Proof.
  intros Hs Hr.
  destruct (Iterate_OK_inv size_bits self centroids _ _ _ r Hs Hr)
    as [_ ->].
  cbn [expected r_distortion r_newCentroids cols]. f_equal.
  apply squared_displacements_ext. intros i Hi. symmetry.
  apply nth_map_seq; trivial.
Qed.

Lemma sum_of_squares_NaN (f : nat -> double) (l : list nat) (i : nat) :
  In i l -> f i = NaN ->
  forall a, fold_left (fun c i => Double.add c (Double.pow2 (f i))) l a = NaN.
Proof.
  assert (Habs : forall l', fold_left
                   (fun c i => Double.add c (Double.pow2 (f i))) l' NaN = NaN).
  { induction l' as [|j l' IH]; simpl; trivial. }
  induction l as [|j l IH]; intros Hin Hf a; [destruct Hin|].
  simpl. destruct Hin as [-> | Hin].
  - rewrite Hf. replace (Double.add a (Double.pow2 NaN)) with NaN
      by (destruct a; reflexivity).
    apply Habs.
  - apply IH; trivial.
Qed.

Lemma sum_of_squares_PInf (f : nat -> double) (l : list nat) :
  (forall j, In j l -> f j <> NaN) ->
  forall a, a <> NaN -> a <> NInf ->
    (a = PInf \/ exists i, In i l /\ (f i = PInf \/ f i = NInf)) ->
    fold_left (fun c i => Double.add c (Double.pow2 (f i))) l a = PInf.
Proof.
  induction l as [|j l IH]; intros Hn a Ha1 Ha2 H; simpl.
  - destruct H as [-> | (i & [] & _)]; trivial.
  - assert (Hj : f j <> NaN) by (apply Hn; left; trivial).
    apply IH.
    + intros k Hk. apply Hn. right; trivial.
    + destruct a, (f j); simpl; congruence.
    + destruct a, (f j); simpl; congruence.
    + destruct H as [-> | (i & [<- | Hi] & Hinf)].
      * left. destruct (f j); simpl; congruence.
      * left. destruct a, Hinf as [-> | ->]; simpl; congruence.
      * right. exists i. auto.
Qed.

(** X6.  A distance between a centroid and its new position that is not a
    number does not stop [Iterate]: the call returns, with the distortion
    not-a-number; and when no such distance is not-a-number but one is
    infinite, the distortion is +infinity. *)
Theorem Iterate_distortion_not_finite (size_bits : N)
  (self : ParallelNaiveKMeans) (centroids : mat)
  (newCentroids : mat) (counts : list nat) (s : schedule) (r : IterateResult) :
  schedule_ok s (n_cols (dataset self)) ->
  Iterate size_bits self centroids newCentroids counts s = OK r ->
  let moved := fun i =>
    Evaluate (metric self) (nth i (cols centroids) ([] : vec))
             (nth i (cols (r_newCentroids r)) ([] : vec)) in
  ((exists i, i < n_cols centroids /\ moved i = NaN) ->
   r_distortion r = NaN) /\
  ((forall i, i < n_cols centroids -> moved i <> NaN) ->
   (exists i, i < n_cols centroids /\ (moved i = PInf \/ moved i = NInf)) ->
   r_distortion r = PInf).
Proof.
  intros Hs Hr moved.
  rewrite (Iterate_distortion_formula size_bits self centroids _ _ _ r Hs Hr).
  unfold squared_displacements. split.
  - intros (i & Hi & Hnan).
    rewrite (sum_of_squares_NaN moved (seq 0 (n_cols centroids)) i);
      trivial.
    apply in_seq. lia.
  - intros Hn (i & Hi & Hinf).
    rewrite (sum_of_squares_PInf moved (seq 0 (n_cols centroids))).
    + reflexivity.
    + intros j Hj. apply in_seq in Hj. apply Hn. lia.
    + discriminate.
    + discriminate.
    + right. exists i. split; trivial. apply in_seq. lia.
Qed.

Lemma edge_centroids_accepted (centroids : mat) :
  centroids = Edge.nan_centroids \/ centroids = Edge.inf_centroids ->
  forallb (accepted Scenario.kmeans4 centroids)
          (cols (dataset Scenario.kmeans4)) = true.
Proof. intros [-> | ->]; reflexivity. Qed.

Lemma Iterate_distortion_not_finite_witness :
  (Iterate 64 Scenario.kmeans4 Edge.nan_centroids Scenario.buffer [] [[0]] =
     OK (expected 64 Scenario.kmeans4 Edge.nan_centroids) /\
   r_distortion (expected 64 Scenario.kmeans4 Edge.nan_centroids) = NaN) /\
  (Iterate 64 Scenario.kmeans4 Edge.inf_centroids Scenario.buffer [] [[0]] =
     OK (expected 64 Scenario.kmeans4 Edge.inf_centroids) /\
   r_distortion (expected 64 Scenario.kmeans4 Edge.inf_centroids) = PInf).
Proof.
  assert (H1 : Iterate 64 Scenario.kmeans4 Edge.nan_centroids Scenario.buffer
                 [] [[0]] =
               OK (expected 64 Scenario.kmeans4 Edge.nan_centroids)).
  { apply Iterate_spec; [exact one_worker_ok|].
    apply edge_centroids_accepted. left; reflexivity. }
  assert (H2 : Iterate 64 Scenario.kmeans4 Edge.inf_centroids Scenario.buffer
                 [] [[0]] =
               OK (expected 64 Scenario.kmeans4 Edge.inf_centroids)).
  { apply Iterate_spec; [exact one_worker_ok|].
    apply edge_centroids_accepted. right; reflexivity. }
  split; (split; [assumption|]).
  - apply (proj1 (Iterate_distortion_not_finite 64 Scenario.kmeans4
                    Edge.nan_centroids Scenario.buffer [] [[0]] _
                    one_worker_ok H1)).
    exists 1. split; [unfold n_cols; simpl; lia | reflexivity].
  - apply (proj2 (Iterate_distortion_not_finite 64 Scenario.kmeans4
                    Edge.inf_centroids Scenario.buffer [] [[0]] _
                    one_worker_ok H2)).
    + intros [|[|i]] Hi; [discriminate | discriminate |].
      unfold n_cols in Hi. simpl in Hi. lia.
    + exists 1. split; [unfold n_cols; simpl; lia | left; reflexivity].
Defined.

(** ** Calls in sequence *)

Lemma Iterate_r_self (size_bits : N) (self : ParallelNaiveKMeans)
  (centroids : mat) (newCentroids : mat) (counts : list nat) (s : schedule)
  (r : IterateResult) :
  Iterate size_bits self centroids newCentroids counts s = OK r ->
  dataset (r_self r) = dataset self /\
  metric (r_self r) = metric self /\
  distanceCalculations (r_self r) =
  ((distanceCalculations self +
    (N.of_nat (n_cols centroids) * N.of_nat (n_cols (dataset self)) +
     N.of_nat (n_cols centroids))) mod 2 ^ size_bits)%N.
Proof.
  intros Hr. unfold Iterate in Hr.
  destruct (parallel_region _ _ _ _) as [acc|]; simpl in Hr; [|discriminate].
  destruct (normalize _ _ _) as [nc|]; simpl in Hr; [|discriminate].
  destruct (distortion_sum _ _ _) as [cNorm|]; simpl in Hr; [|discriminate].
  injection Hr as <-. cbn [r_self dataset metric distanceCalculations].
  repeat split. unfold size_add, size_mul.
  rewrite N.Div0.add_mod_idemp_r, N.Div0.add_mod_idemp_l.
  f_equal. lia.
Qed.

(** X7.  Calls in sequence on one object, each with its own centroids,
    buffers and schedule: when they all return, the object still has its
    dataset and its metric, and its counter is the counter before the first
    call plus K * N + K for every call, modulo 2^size_bits.  The counter of
    a new object is 0. *)
Theorem Iterate_calls_counter (size_bits : N) (calls : list call)
  (self self' : ParallelNaiveKMeans) :
  (distanceCalculations self < 2 ^ size_bits)%N ->
  Iterate_calls size_bits calls self = OK self' ->
  dataset self' = dataset self /\
  metric self' = metric self /\
  distanceCalculations self' =
  ((distanceCalculations self +
    calls_cost (N.of_nat (n_cols (dataset self))) calls)
   mod 2 ^ size_bits)%N.
Proof.
  unfold Iterate_calls. revert self.
  induction calls as [|c calls IH]; intros self Hlt H.
  - simpl in H. injection H as <-. repeat split.
    simpl. rewrite N.add_0_r, N.mod_small; trivial.
  - cbn [foldM] in H.
    destruct (Iterate size_bits self (c_centroids c) (c_newCentroids c)
                (c_counts c) (c_schedule c)) as [r|] eqn:Hr;
      simpl in H; [|discriminate].
    destruct (Iterate_r_self _ _ _ _ _ _ _ Hr) as (Hd & Hm & Hc).
    assert (Hpos : (2 ^ size_bits <> 0)%N) by (apply N.pow_nonzero; lia).
    destruct (IH (r_self r)) as (Hd' & Hm' & Hc'); trivial.
    { rewrite Hc. apply N.mod_lt; trivial. }
    repeat split; [congruence | congruence |].
    rewrite Hc', Hc, Hd.
    change (calls_cost (N.of_nat (n_cols (dataset self))) (c :: calls))
      with (N.of_nat (n_cols (c_centroids c)) *
              N.of_nat (n_cols (dataset self)) +
            N.of_nat (n_cols (c_centroids c)) +
            calls_cost (N.of_nat (n_cols (dataset self))) calls)%N.
    rewrite N.Div0.add_mod_idemp_l. f_equal. lia.
Qed.

Lemma Iterate_calls_counter_witness :
  exists self',
    Iterate_calls 64 Edge.two_calls
      (new_ParallelNaiveKMeans Scenario.dataset1 Scenario.manhattan) =
    OK self' /\
    dataset self' = Scenario.dataset1 /\
    metric self' = Scenario.manhattan /\
    distanceCalculations self' = 20%N.
Proof.
  assert (H : Iterate_calls 64 Edge.two_calls
                (new_ParallelNaiveKMeans Scenario.dataset1 Scenario.manhattan)
              = OK (r_self (expected 64 (r_self Scenario.result1)
                                     Scenario.centroids1))).
  { unfold Iterate_calls, Edge.two_calls.
    cbn [foldM c_centroids c_newCentroids c_counts c_schedule].
    change (new_ParallelNaiveKMeans Scenario.dataset1 Scenario.manhattan)
      with Scenario.kmeans1.
    rewrite scenario1_run. cbn [bind].
    rewrite (Iterate_returns 64 (r_self Scenario.result1)
               Scenario.centroids1).
    - reflexivity.
    - exact two_workers_ok.
    - discriminate.
    - intros p [<- | [<- | [<- | [<- | []]]]]; reflexivity.
    - intros p c [<- | [<- | [<- | [<- | []]]]] [<- | [<- | []]];
        split; discriminate. }
  eexists. split; [exact H|].
  destruct (Iterate_calls_counter 64 Edge.two_calls
              (new_ParallelNaiveKMeans Scenario.dataset1 Scenario.manhattan)
              _ eq_refl H) as (Hd & Hm & Hc).
  split; [exact Hd|]. split; [exact Hm|].
  rewrite Hc. reflexivity.
Defined.

(** ** A dataset without points *)

(** X8.  On a dataset without points [Iterate] returns for any centroids
    and any metric, the assertion of line 78 never being reached: every new
    centroid is the zero vector, every count is 0, and the counter grows by
    the number of centroids only. *)
Theorem Iterate_no_points (size_bits : N) (self : ParallelNaiveKMeans)
  (centroids : mat) (newCentroids : mat) (counts : list nat) (s : schedule) :
  cols (dataset self) = [] ->
  schedule_ok s 0 ->
  exists r,
    Iterate size_bits self centroids newCentroids counts s = OK r /\
    r_newCentroids r = zeros_mat (n_rows centroids) (n_cols centroids) /\
    r_counts r = repeat 0 (n_cols centroids) /\
    distanceCalculations (r_self r) =
    ((distanceCalculations self + N.of_nat (n_cols centroids))
     mod 2 ^ size_bits)%N.
Proof.
  intros Hn Hs.
  assert (H : Iterate size_bits self centroids newCentroids counts s =
              OK (expected size_bits self centroids)).
  { apply Iterate_spec.
    - unfold n_cols. rewrite Hn. exact Hs.
    - rewrite Hn. reflexivity. }
  exists (expected size_bits self centroids). split; trivial.
  destruct (Iterate_r_self _ _ _ _ _ _ _ H) as (_ & _ & Hc).
  repeat split.
  - unfold expected, zeros_mat. cbn [r_newCentroids]. f_equal.
    rewrite <- (map_const_seq (repeat Double.zero (n_rows centroids)) 0).
    apply map_ext. intros i.
    unfold new_centroid, normalized, cluster_points. rewrite Hn. reflexivity.
  - unfold expected. cbn [r_counts].
    rewrite <- (map_const_seq 0 0).
    apply map_ext. intros i. unfold cluster_points. rewrite Hn. reflexivity.
  - rewrite Hc. f_equal. unfold n_cols at 2. rewrite Hn. simpl. lia.
Qed.

Lemma Iterate_no_points_witness :
  exists r,
    Iterate 64 Scenario.kmeans_empty Edge.nan_centroids Scenario.stale_buffer
            [5] [[]] = OK r /\
    r_newCentroids r = zeros_mat 1 2 /\
    r_counts r = [0; 0] /\
    distanceCalculations (r_self r) = 2%N.
Proof.
  destruct (Iterate_no_points 64 Scenario.kmeans_empty Edge.nan_centroids
              Scenario.stale_buffer [5] [[]] eq_refl (Permutation_refl _))
    as (r & Hr & Hn & Hc & Hd).
  exists r. repeat split; trivial.
Defined.

(** ** The critical section *)

Lemma map2_comm {A B : Type} (f : A -> A -> B) :
  (forall x y, f x y = f y x) ->
  forall a b, map2 f a b = map2 f b a.
Proof.
  intros Hf. induction a as [|x a IH]; intros [|y b]; simpl; trivial.
  rewrite Hf, IH. trivial.
Qed.

(** X9.  The addition of the critical section (lines 87-88) is
    commutative: adding a worker's accumulators to the shared ones gives
    what adding the shared ones to the worker's gives, and fails on the same
    pairs. *)
Theorem merge_comm (a b : mat * list nat) : merge a b = merge b a.
Proof.
  unfold merge, mat_plus_assign, counts_plus_assign.
  rewrite (Nat.eqb_sym (n_rows (fst b))), (Nat.eqb_sym (n_cols (fst b))),
    (Nat.eqb_sym (length (snd b))).
  destruct (Nat.eqb_spec (n_rows (fst a)) (n_rows (fst b))) as [Hr|];
    simpl; trivial.
  destruct (n_cols (fst a) =? n_cols (fst b)); simpl; trivial.
  destruct (length (snd a) =? length (snd b)); simpl; trivial.
  rewrite Hr, (map2_comm (map2 Double.add) vadd_comm (cols (fst a))),
    (map2_comm Nat.add Nat.add_comm (snd a)).
  trivial.
Qed.

(** ** The private accumulators of a worker *)

(** X10.  A worker that returns holds, in its private accumulators, for
    every centroid the sum and the number of the points of its chunk that
    are closest to it; its counts add up to the length of its chunk. *)
Theorem worker_accumulates (self : ParallelNaiveKMeans) (centroids : mat)
  (chunk : list nat) (local : mat * list nat) :
  (forall i, In i chunk -> i < n_cols (dataset self)) ->
  worker self centroids chunk = OK local ->
  let pts := map (point self) chunk in
  fst local =
    Mat (n_rows centroids)
        (map (fun i => vsum (n_rows centroids)
                         (cluster_points self centroids i pts))
             (seq 0 (n_cols centroids))) /\
  snd local =
    map (fun i => length (cluster_points self centroids i pts))
        (seq 0 (n_cols centroids)) /\
  list_sum (snd local) = length chunk.
Proof.
  intros Hi H pts.
  rewrite (worker_points self centroids chunk Hi) in H. fold pts in H.
  destruct (foldM_assign_point self centroids pts [] (Forall_nil _))
    as [Hok Hko].
  destruct (forallb (accepted self centroids) pts) eqn:Hacc.
  - rewrite (Hok eq_refl) in H. injection H as <-.
    cbn [app acc_of fst snd]. repeat split.
    rewrite cluster_sizes_sum.
    + unfold pts. apply length_map.
    + intros p Hp. rewrite forallb_forall in Hacc. apply Hacc in Hp.
      unfold accepted in Hp. apply andb_true_iff in Hp as [Hp _].
      apply Nat.ltb_lt; trivial.
  - destruct (Hko eq_refl) as (e & He & _). congruence.
Qed.

Lemma first_chunk_accepted :
  forallb (accepted Scenario.kmeans1 Scenario.centroids1)
          (map (point Scenario.kmeans1) [0; 1]) = true.
Proof. unfold point. run. r_decide. reflexivity. Qed.

Lemma worker_accumulates_witness :
  exists local,
    worker Scenario.kmeans1 Scenario.centroids1 [0; 1] = OK local /\
    list_sum (snd local) = 2.
Proof.
  assert (Hi : forall i, In i [0; 1] -> i < n_cols (dataset Scenario.kmeans1)).
  { intros i [<- | [<- | []]]; unfold n_cols; simpl; lia. }
  assert (H : worker Scenario.kmeans1 Scenario.centroids1 [0; 1] =
              OK (acc_of Scenario.kmeans1 Scenario.centroids1
                    (map (point Scenario.kmeans1) [0; 1]))).
  { rewrite (worker_points _ _ _ Hi).
    apply (proj1 (foldM_assign_point Scenario.kmeans1 Scenario.centroids1
                    _ [] (Forall_nil _))).
    exact first_chunk_accepted. }
  eexists. split; [exact H|].
  exact (proj2 (proj2 (worker_accumulates Scenario.kmeans1
                         Scenario.centroids1 [0; 1] _ Hi H))).
Defined.

(** ** The cause of an error *)

Section ErrorFacts.

Variable self : ParallelNaiveKMeans.
Variable centroids : mat.

Lemma assign_point_error (pre : list vec) (p : vec) (e : error) :
  Forall (fun p : vec => length p = n_rows centroids) pre ->
  assign_point self centroids (acc_of self centroids pre) p = Err e ->
  (e = AssertFailed /\
   closest_cluster self centroids p = n_cols centroids) \/
  (e = IncompatibleDims /\
   closest_cluster self centroids p < n_cols centroids /\
   length p <> n_rows centroids).
Proof.
  intros Hpre H.
  destruct (accepted self centroids p) eqn:Hp.
  { rewrite (assign_point_accepted self centroids pre p Hpre Hp) in H.
    discriminate. }
  unfold assign_point in H.
  destruct (Nat.eqb_spec (closest_cluster self centroids p) (n_cols centroids))
    as [E | E].
  { simpl in H. injection H as <-. left. auto. }
  cbn [negb Log_Assert bind] in H.
  pose proof (closest_cluster_le self centroids p) as Hle.
  assert (Hc : closest_cluster self centroids p < n_cols centroids) by lia.
  unfold accepted in Hp. apply andb_false_iff in Hp as [Hp | Hp].
  { apply Nat.ltb_ge in Hp. lia. }
  apply Nat.eqb_neq in Hp.
  set (c := closest_cluster self centroids p) in *.
  cbn [acc_of fst snd cols n_rows] in H.
  rewrite (alter_at_fails _ _ IncompatibleDims _ c 0 Hc) in H.
  - simpl in H. injection H as <-. right. auto.
  - cbv beta. cbn [Nat.add]. unfold vec_plus_assign.
    rewrite (vsum_length _ _ (cluster_points_rows self centroids c _ Hpre)).
    destruct (Nat.eqb_spec (n_rows centroids) (length p)); [lia | trivial].
Qed.

Lemma foldM_assign_point_error (pts : list vec) (e : error) :
  forall pre, Forall (fun p : vec => length p = n_rows centroids) pre ->
    foldM (assign_point self centroids) pts (acc_of self centroids pre) =
    Err e ->
    exists p, In p pts /\
      ((e = AssertFailed /\
        closest_cluster self centroids p = n_cols centroids) \/
       (e = IncompatibleDims /\
        closest_cluster self centroids p < n_cols centroids /\
        length p <> n_rows centroids)).
Proof.
  induction pts as [|p pts IH]; intros pre Hpre H; simpl in H;
    [discriminate|].
  destruct (assign_point self centroids (acc_of self centroids pre) p)
    as [local|e'] eqn:Hstep; simpl in H.
  - destruct (accepted self centroids p) eqn:Hp.
    + rewrite (assign_point_accepted self centroids pre p Hpre Hp) in Hstep.
      injection Hstep as <-.
      destruct (IH (pre ++ [p])) as (q & Hq & Hcause); trivial.
      * apply Forall_app. split; trivial.
        apply (accepted_rows self centroids [p]). simpl. rewrite Hp. trivial.
      * exists q. split; [right|]; trivial.
    + destruct (assign_point_rejected self centroids pre p Hpre Hp)
        as (e' & He' & _). congruence.
  - injection H as <-. exists p. split; [left; trivial|].
    apply (assign_point_error pre); trivial.
Qed.

Lemma parallel_region_error (s : schedule) (e : error) :
  (forall i, In i (concat s) -> i < n_cols (dataset self)) ->
  forall pre, Forall (fun p : vec => length p = n_rows centroids) pre ->
    parallel_region self centroids s (acc_of self centroids pre) = Err e ->
    exists p, In p (map (point self) (concat s)) /\
      ((e = AssertFailed /\
        closest_cluster self centroids p = n_cols centroids) \/
       (e = IncompatibleDims /\
        closest_cluster self centroids p < n_cols centroids /\
        length p <> n_rows centroids)).
Proof.
  induction s as [|chunk s IH]; intros Hs pre Hpre H; [discriminate|].
  rewrite parallel_region_cons in H. cbn [concat]. rewrite map_app.
  rewrite worker_points in H
    by (intros i Hi; apply Hs; simpl; apply in_or_app; left; trivial).
  destruct (foldM (assign_point self centroids) (map (point self) chunk)
              (acc_of self centroids [])) as [local|e'] eqn:Hw.
  - destruct (foldM_assign_point self centroids (map (point self) chunk) []
                (Forall_nil _)) as [Hok Hko].
    destruct (forallb (accepted self centroids) (map (point self) chunk))
      eqn:Hacc.
    + rewrite (Hok eq_refl) in Hw. injection Hw as <-.
      cbn [bind app] in H.
      rewrite (merge_acc_of self centroids _ _ Hpre) in H. cbn [bind] in H.
      destruct (IH (fun i Hi => Hs i (in_or_app _ _ _ (or_intror Hi)))
                  (pre ++ map (point self) chunk))
        as (q & Hq & Hcause); trivial.
      * apply Forall_app. split; trivial.
        apply (accepted_rows self centroids); trivial.
      * exists q. split; trivial. apply in_or_app. right; trivial.
    + destruct (Hko eq_refl) as (e' & He' & _). congruence.
  - simpl in H. injection H as <-.
    destruct (foldM_assign_point_error _ _ [] (Forall_nil _) Hw)
      as (q & Hq & Hcause).
    exists q. split; trivial. apply in_or_app. left; trivial.
Qed.

End ErrorFacts.

(** X11.  The cause of an error: when [Iterate] fails on the assertion of
    line 78, some point of the dataset has no centroid at a distance below
    +infinity; when it fails on incompatible dimensions, some point has a
    closest centroid and another number of rows than the centroids.  The
    additions of the critical section, the normalisation and the distortion
    loop never fail. *)
Theorem Iterate_error_cause (size_bits : N) (self : ParallelNaiveKMeans)
  (centroids : mat) (newCentroids : mat) (counts : list nat) (s : schedule)
  (e : error) :
  schedule_ok s (n_cols (dataset self)) ->
  Iterate size_bits self centroids newCentroids counts s = Err e ->
  exists p, In p (cols (dataset self)) /\
    ((e = AssertFailed /\
      closest_cluster self centroids p = n_cols centroids) \/
     (e = IncompatibleDims /\
      closest_cluster self centroids p < n_cols centroids /\
      length p <> n_rows centroids)).
Proof.
  intros Hs H.
  destruct (schedule_ok_points self s Hs) as [Hi Hp].
  destruct (forallb (accepted self centroids) (cols (dataset self))) eqn:Ha.
  { rewrite (proj1 (Iterate_spec size_bits self centroids newCentroids
                      counts s Hs) Ha) in H.
    discriminate. }
  destruct (proj2 (parallel_region_spec self centroids s Hs) Ha)
    as (e' & He' & _).
  unfold Iterate, mat_zeros, counts_zeros in H.
  rewrite He' in H. simpl in H. injection H as <-.
  rewrite <- (acc_of_nil self centroids) in He'.
  destruct (parallel_region_error self centroids s e' Hi [] (Forall_nil _)
              He') as (q & Hq & Hcause).
  exists q. split; trivial. apply (Permutation_in _ Hp); trivial.
Qed.

Lemma scenario_2rows_run :
  Iterate 64 Scenario.kmeans4 Scenario.centroids_2rows Scenario.buffer []
          [[0]] = Err IncompatibleDims.
Proof. run. r_decide. reflexivity. Qed.

Lemma Iterate_error_cause_witness :
  exists p, In p (cols (dataset Scenario.kmeans4)) /\
    closest_cluster Scenario.kmeans4 Scenario.centroids_2rows p <
      n_cols Scenario.centroids_2rows /\
    length p <> n_rows Scenario.centroids_2rows.
Proof.
  destruct (Iterate_error_cause 64 Scenario.kmeans4 Scenario.centroids_2rows
              Scenario.buffer [] [[0]] IncompatibleDims one_worker_ok
              scenario_2rows_run) as (p & Hp & [[He _] | [_ Hc]]).
  - discriminate He.
  - exists p. split; trivial.
Defined.

(** ** The arguments the metric is evaluated on *)

Lemma forallb_ext_in {A : Type} (f g : A -> bool) (l : list A) :
  (forall x, In x l -> f x = g x) -> forallb f l = forallb g l.
Proof.
  induction l as [|x l IH]; intros H; simpl; trivial.
  rewrite (H x) by (left; trivial). f_equal.
  apply IH. intros y Hy. apply H. right; trivial.
Qed.

Section MetricArguments.

Variables self self' : ParallelNaiveKMeans.
Variable centroids : mat.
Hypothesis Hdataset : dataset self = dataset self'.
Hypothesis Hassign : forall p c,
  In p (cols (dataset self)) -> In c (cols centroids) ->
  Evaluate (metric self) p c = Evaluate (metric self') p c.

Lemma scan_agree (p : vec) (cs : list vec) :
  (forall c, In c cs ->
     Evaluate (metric self) p c = Evaluate (metric self') p c) ->
  forall j m c, scan self p cs j m c = scan self' p cs j m c.
Proof.
  induction cs as [|x cs IH]; intros H j m c; simpl; trivial.
  rewrite (H x) by (left; trivial).
  rewrite !IH by (intros y Hy; apply H; right; trivial). trivial.
Qed.

Lemma closest_cluster_agree (p : vec) :
  In p (cols (dataset self)) ->
  closest_cluster self centroids p = closest_cluster self' centroids p.
Proof.
  intros Hp. unfold closest_cluster.
  rewrite scan_agree by (intros c Hc; apply Hassign; trivial). trivial.
Qed.

Lemma assign_point_agree (local : mat * list nat) (p : vec) :
  In p (cols (dataset self)) ->
  assign_point self centroids local p = assign_point self' centroids local p.
Proof.
  intros Hp. unfold assign_point.
  rewrite closest_cluster_agree by trivial. trivial.
Qed.

Lemma parallel_region_agree (s : schedule) (shared : mat * list nat) :
  parallel_region self centroids s shared =
  parallel_region self' centroids s shared.
Proof.
  unfold parallel_region. apply foldM_ext. intros sh chunk.
  replace (worker self' centroids chunk) with (worker self centroids chunk);
    trivial.
  unfold worker. apply foldM_ext. intros local i.
  rewrite <- Hdataset. unfold col.
  destruct (nth_error (cols (dataset self)) i) as [p|] eqn:Hp; simpl; trivial.
  apply assign_point_agree. apply (nth_error_In _ _ Hp).
Qed.

Lemma accepted_agree :
  forallb (accepted self centroids) (cols (dataset self)) =
  forallb (accepted self' centroids) (cols (dataset self')).
Proof.
  rewrite <- Hdataset. apply forallb_ext_in. intros p Hp.
  unfold accepted. rewrite closest_cluster_agree by trivial. trivial.
Qed.

Lemma cluster_points_agree (i : nat) :
  cluster_points self centroids i (cols (dataset self)) =
  cluster_points self' centroids i (cols (dataset self')).
Proof.
  rewrite <- Hdataset. unfold cluster_points. apply filter_ext_in.
  intros p Hp. unfold assigned.
  rewrite closest_cluster_agree by trivial. trivial.
Qed.

Lemma new_centroid_agree (i : nat) :
  new_centroid self centroids i = new_centroid self' centroids i.
Proof.
  unfold new_centroid, normalized. rewrite !cluster_points_agree. trivial.
Qed.

End MetricArguments.

(** X12.  The metric is evaluated on a point of the dataset and a centroid,
    in this order, and on a centroid and its new position, in this order,
    and on nothing else: two metrics that agree on these pairs, whatever
    they are on the others, give the same new centroids, counts and
    distortion, or the same error.  The metric need not be symmetric. *)
Theorem Iterate_metric_arguments (size_bits : N)
  (self self' : ParallelNaiveKMeans) (centroids : mat)
  (newCentroids : mat) (counts : list nat) (s : schedule) :
  schedule_ok s (n_cols (dataset self)) ->
  dataset self = dataset self' ->
  (forall p c, In p (cols (dataset self)) -> In c (cols centroids) ->
     Evaluate (metric self) p c = Evaluate (metric self') p c) ->
  (forall r i,
     Iterate size_bits self centroids newCentroids counts s = OK r ->
     i < n_cols centroids ->
     Evaluate (metric self) (nth i (cols centroids) ([] : vec))
              (nth i (cols (r_newCentroids r)) ([] : vec)) =
     Evaluate (metric self') (nth i (cols centroids) ([] : vec))
              (nth i (cols (r_newCentroids r)) ([] : vec))) ->
  match Iterate size_bits self centroids newCentroids counts s,
        Iterate size_bits self' centroids newCentroids counts s with
  | OK r, OK r' =>
      r_newCentroids r = r_newCentroids r' /\
      r_counts r = r_counts r' /\
      r_distortion r = r_distortion r'
  | Err e, Err e' => e = e'
  | _, _ => False
  end.
Proof.
  intros Hs Hds Ha Hm.
  pose proof (accepted_agree self self' centroids Hds Ha) as Hacc.
  destruct (forallb (accepted self centroids) (cols (dataset self))) eqn:E.
  - pose proof (proj1 (Iterate_spec size_bits self centroids newCentroids
                         counts s Hs) E) as H1.
    assert (Hs' : schedule_ok s (n_cols (dataset self')))
      by (rewrite <- Hds; trivial).
    pose proof (proj1 (Iterate_spec size_bits self' centroids newCentroids
                         counts s Hs') (eq_sym Hacc)) as H2.
    pose proof (fun i => Hm _ i H1) as Hmoved. clear Hm.
    rewrite H1, H2. cbn [expected r_newCentroids r_counts r_distortion].
    cbn [expected r_newCentroids cols] in Hmoved.
    pose proof (new_centroid_agree self self' centroids Hds Ha) as Hnew.
    split; [f_equal; apply map_ext; trivial|]. split.
    + apply map_ext. intros i.
      rewrite (cluster_points_agree self self' centroids Hds Ha). trivial.
    + f_equal. unfold squared_displacements. apply fold_left_ext_in.
      intros a i Hi. apply in_seq in Hi. rewrite <- Hnew.
      specialize (Hmoved i ltac:(lia)).
      rewrite nth_map_seq in Hmoved by lia. rewrite Hmoved. trivial.
  - unfold Iterate, mat_zeros, counts_zeros.
    rewrite <- (parallel_region_agree self self' centroids Hds Ha).
    destruct (proj2 (parallel_region_spec self centroids s Hs) E)
      as (e & He & _).
    rewrite He. simpl. trivial.
Qed.

Lemma skewed_agrees_on_points (p c : vec) :
  In p (cols (dataset Scenario.kmeans1)) ->
  In c (cols Scenario.centroids1) ->
  Evaluate (metric Scenario.kmeans1) p c =
  Evaluate (metric Edge.kmeans_skewed) p c.
Proof.
  intros _ [<- | [<- | []]];
    unfold Edge.kmeans_skewed, Scenario.kmeans1, new_ParallelNaiveKMeans,
      Edge.skewed, Scenario.v1;
    cbn [metric Evaluate];
    repeat destruct Req_dec_T; try (exfalso; lra); reflexivity.
Qed.

Lemma skewed_agrees_on_moves (r : IterateResult) (i : nat) :
  Iterate 64 Scenario.kmeans1 Scenario.centroids1 Scenario.buffer []
          Scenario.two_workers = OK r ->
  i < n_cols Scenario.centroids1 ->
  Evaluate (metric Scenario.kmeans1)
           (nth i (cols Scenario.centroids1) ([] : vec))
           (nth i (cols (r_newCentroids r)) ([] : vec)) =
  Evaluate (metric Edge.kmeans_skewed)
           (nth i (cols Scenario.centroids1) ([] : vec))
           (nth i (cols (r_newCentroids r)) ([] : vec)).
Proof.
  intros Hr Hi. rewrite scenario1_run in Hr. injection Hr as <-.
  destruct i as [|[|i]];
    [| |exfalso; unfold n_cols in Hi; simpl in Hi; lia];
    unfold Edge.kmeans_skewed, Scenario.kmeans1, new_ParallelNaiveKMeans,
      Edge.skewed, Scenario.result1, Scenario.centroids1, Scenario.v1;
    cbn [metric Evaluate nth cols r_newCentroids];
    repeat destruct Req_dec_T; try (exfalso; lra); reflexivity.
Qed.

Lemma Iterate_metric_arguments_witness :
  (exists r',
     Iterate 64 Edge.kmeans_skewed Scenario.centroids1 Scenario.buffer []
       Scenario.two_workers = OK r' /\
     r_newCentroids Scenario.result1 = r_newCentroids r' /\
     r_counts Scenario.result1 = r_counts r' /\
     r_distortion Scenario.result1 = r_distortion r') /\
  Evaluate Scenario.manhattan (Scenario.v1 0) (Scenario.v1 1) <> NaN /\
  Evaluate Edge.skewed (Scenario.v1 0) (Scenario.v1 1) = NaN.
Proof.
  split; [|split].
  - pose proof (Iterate_metric_arguments 64 Scenario.kmeans1
                  Edge.kmeans_skewed Scenario.centroids1 Scenario.buffer []
                  Scenario.two_workers two_workers_ok eq_refl
                  skewed_agrees_on_points skewed_agrees_on_moves) as H.
    rewrite scenario1_run in H.
    destruct (Iterate 64 Edge.kmeans_skewed Scenario.centroids1
                Scenario.buffer [] Scenario.two_workers) as [r'|e];
      [|contradiction].
    exists r'. split; trivial.
  - run. discriminate.
  - unfold Edge.skewed, Scenario.v1. cbn [Evaluate].
    destruct (Req_dec_T 1 1) as [_ | H]; [reflexivity | exfalso; lra].
Defined.

(** ** The shape of the result *)

(** X13.  When [Iterate] returns, the new centroids have the rows of the
    centroids and one column of that many entries for every centroid, and
    there is one count for every centroid, whatever the shape of the two
    buffers passed in. *)
Theorem Iterate_result_shape (size_bits : N) (self : ParallelNaiveKMeans)
  (centroids : mat) (newCentroids : mat) (counts : list nat) (s : schedule)
  (r : IterateResult) :
  schedule_ok s (n_cols (dataset self)) ->
  Iterate size_bits self centroids newCentroids counts s = OK r ->
  n_rows (r_newCentroids r) = n_rows centroids /\
  n_cols (r_newCentroids r) = n_cols centroids /\
  Forall (fun column => length column = n_rows centroids)
         (cols (r_newCentroids r)) /\
  length (r_counts r) = n_cols centroids.
Proof.
  intros Hs Hr.
  destruct (Iterate_OK_inv size_bits self centroids _ _ _ r Hs Hr)
    as [Hacc ->].
  destruct (expected_shape size_bits self centroids) as (H1 & H2 & H3).
  repeat split; trivial.
  cbn [expected r_newCentroids cols]. apply Forall_forall.
  intros column Hc. apply in_map_iff in Hc as (i & <- & _).
  unfold new_centroid, normalized.
  assert (Hl : length (vsum (n_rows centroids)
                 (cluster_points self centroids i (cols (dataset self)))) =
               n_rows centroids).
  { apply vsum_length, cluster_points_rows.
    apply (accepted_rows self centroids); trivial. }
  destruct (_ =? 0); trivial.
  unfold vec_div_assign. rewrite length_map. trivial.
Qed.

Lemma Iterate_result_shape_witness :
  n_rows (r_newCentroids Scenario.result1) = n_rows Scenario.centroids1 /\
  n_cols (r_newCentroids Scenario.result1) = n_cols Scenario.centroids1 /\
  Forall (fun column => length column = n_rows Scenario.centroids1)
         (cols (r_newCentroids Scenario.result1)) /\
  length (r_counts Scenario.result1) = n_cols Scenario.centroids1.
Proof.
  exact (Iterate_result_shape 64 Scenario.kmeans1 Scenario.centroids1
           Scenario.buffer [] Scenario.two_workers
           Scenario.result1 two_workers_ok scenario1_run).
Defined.

(** * The iteration over an arithmetic *)

(** [Iterate] is [Fp.Iterate] at the exact arithmetic. *)
Lemma Iterate_exact (size_bits : N) (self : ParallelNaiveKMeans)
  (centroids : mat) (newCentroids : mat) (counts : list nat) (s : schedule) :
  Fp.Iterate Fp.exact size_bits self centroids newCentroids counts s =
  Iterate size_bits self centroids newCentroids counts s.
Proof. reflexivity. Qed.

Section FpFacts.

Variable ar : Fp.arithmetic.

Lemma Fp_fold_vadd_length (l : list vec) (z : vec) :
  Forall (fun p => length p = length z) l ->
  length (fold_left (map2 (Fp.add ar)) l z) = length z.
Proof.
  revert z; induction l as [|p l IH]; intros z H; simpl; trivial.
  inversion H as [|? ? Hp Hl]; subst.
  assert (Hz : length (map2 (Fp.add ar) z p) = length z)
    by (apply map2_length; congruence).
  rewrite IH; trivial.
  rewrite Hz; trivial.
Qed.

Lemma Fp_vsum_length (d : nat) (ps : list vec) :
  Forall (fun p => length p = d) ps -> length (Fp.vsum ar d ps) = d.
Proof.
  intros H. unfold Fp.vsum.
  rewrite Fp_fold_vadd_length; rewrite repeat_length; trivial.
Qed.

Variable size_bits : N.
Variable self : ParallelNaiveKMeans.
Variable centroids : mat.

Local Abbreviation rows_ok :=
  (Forall (fun p : vec => length p = n_rows centroids)).
Local Abbreviation acc := (Fp.acc_of ar self centroids).
Local Abbreviation shared := (Fp.shared_of ar self centroids).
Local Abbreviation accept := (accepted self centroids).
Local Abbreviation cluster := (cluster_points self centroids).
Local Abbreviation step := (Fp.assign_point ar self centroids).
Local Abbreviation region := (Fp.parallel_region ar self centroids).

Lemma Fp_acc_of_nil :
  acc [] = (zeros_mat (n_rows centroids) (n_cols centroids),
            repeat 0 (n_cols centroids)).
Proof.
  unfold Fp.acc_of, zeros_mat, cluster_points, Fp.vsum. simpl.
  rewrite !map_const_seq. trivial.
Qed.

Lemma Fp_shared_of_nil :
  shared [] = (zeros_mat (n_rows centroids) (n_cols centroids),
               repeat 0 (n_cols centroids)).
Proof.
  unfold Fp.shared_of, zeros_mat, cluster_points, Fp.merged. simpl.
  rewrite !map_const_seq. trivial.
Qed.

(** The loop body on an accepted point: the point is added to the sum of
    its cluster, after the points added before. *)
Lemma Fp_assign_point_accepted (pre : list vec) (p : vec) :
  rows_ok pre -> accept p = true ->
  step (acc pre) p = OK (acc (pre ++ [p])).
Proof.
  intros Hpre Hp. unfold accepted in Hp.
  apply andb_true_iff in Hp as [Hc Hl].
  apply Nat.ltb_lt in Hc. apply Nat.eqb_eq in Hl.
  unfold Fp.assign_point.
  destruct (Nat.eqb_spec (closest_cluster self centroids p) (n_cols centroids));
    [lia|].
  cbn [negb Log_Assert bind].
  set (c := closest_cluster self centroids p) in *.
  cbn [Fp.acc_of fst snd cols n_rows].
  rewrite (alter_at_map_seq _ _ (map2 (Fp.add ar)
             (Fp.vsum ar (n_rows centroids) (cluster c pre)) p) _ c 0 Hc).
  2:{ cbv beta. cbn [Nat.add]. unfold Fp.vec_plus_assign.
      rewrite (Fp_vsum_length _ _
                 (cluster_points_rows self centroids c _ Hpre)), Hl.
      rewrite Nat.eqb_refl.
      trivial. }
  cbn [bind].
  rewrite (alter_at_map_seq _ _ (S (length (cluster c pre))) _ c 0 Hc)
    by trivial.
  cbn [bind]. unfold Fp.acc_of. do 2 f_equal.
  - f_equal. apply map_ext. intros j. rewrite cluster_points_snoc.
    unfold assigned. fold c. rewrite (Nat.eqb_sym c j).
    destruct (Nat.eqb_spec j (0 + c)) as [-> | Hj]; simpl.
    + rewrite Nat.eqb_refl. unfold Fp.vsum. rewrite fold_left_app. trivial.
    + destruct (Nat.eqb_spec j c); [lia|]. rewrite app_nil_r. trivial.
  - apply map_ext. intros j. rewrite cluster_points_snoc.
    unfold assigned. fold c. rewrite (Nat.eqb_sym c j).
    destruct (Nat.eqb_spec j (0 + c)) as [-> | Hj]; simpl.
    + rewrite Nat.eqb_refl, length_app. simpl. lia.
    + destruct (Nat.eqb_spec j c); [lia|]. rewrite app_nil_r. trivial.
Qed.

Lemma Fp_assign_point_rejected (pre : list vec) (p : vec) :
  rows_ok pre -> accept p = false ->
  exists e, step (acc pre) p = Err e /\ loop_error e.
Proof.
  intros Hpre Hp. unfold Fp.assign_point, loop_error.
  destruct (Nat.eqb_spec (closest_cluster self centroids p) (n_cols centroids))
    as [E | E]; [simpl; eauto|].
  cbn [negb Log_Assert bind].
  pose proof (closest_cluster_le self centroids p) as Hle.
  assert (Hc : closest_cluster self centroids p < n_cols centroids) by lia.
  unfold accepted in Hp. apply andb_false_iff in Hp as [Hp | Hp].
  { apply Nat.ltb_ge in Hp. lia. }
  apply Nat.eqb_neq in Hp.
  set (c := closest_cluster self centroids p) in *.
  cbn [Fp.acc_of fst snd cols n_rows].
  rewrite (alter_at_fails _ _ IncompatibleDims _ c 0 Hc);
    [simpl; eauto|].
  cbv beta. cbn [Nat.add]. unfold Fp.vec_plus_assign.
  rewrite (Fp_vsum_length _ _ (cluster_points_rows self centroids c _ Hpre)).
  destruct (Nat.eqb_spec (n_rows centroids) (length p)); [lia | trivial].
Qed.

Lemma Fp_foldM_assign_point (pts : list vec) :
  forall pre, rows_ok pre ->
    (forallb accept pts = true ->
     foldM step pts (acc pre) = OK (acc (pre ++ pts))) /\
    (forallb accept pts = false ->
     exists e, foldM step pts (acc pre) = Err e /\ loop_error e).
Proof.
  induction pts as [|p pts IH]; intros pre Hpre; simpl.
  - rewrite app_nil_r. split; [trivial | discriminate].
  - destruct (accept p) eqn:Hp; simpl.
    + rewrite (Fp_assign_point_accepted _ _ Hpre Hp). cbn [bind].
      replace (pre ++ p :: pts) with ((pre ++ [p]) ++ pts)
        by (rewrite <- app_assoc; trivial).
      apply IH. apply Forall_app. split; trivial.
      apply (accepted_rows self centroids [p]). simpl. rewrite Hp. trivial.
    + split; [discriminate|]. intros _.
      destruct (Fp_assign_point_rejected _ _ Hpre Hp) as (e & -> & He).
      simpl. eauto.
Qed.

(** The critical section adds the sum of the worker that enters to the
    sums of the workers that have left; it never fails. *)
Lemma Fp_merge_shared_of (parts : list (list vec)) (ps : list vec) :
  Fp.merge ar (shared parts) (acc ps) = OK (shared (parts ++ [ps])).
Proof.
  unfold Fp.merge, Fp.mat_plus_assign, counts_plus_assign, n_cols.
  cbn [Fp.shared_of Fp.acc_of fst snd cols n_rows].
  rewrite !length_map, !Nat.eqb_refl. cbn [andb bind].
  rewrite !map2_map_seq. unfold Fp.shared_of. do 2 f_equal.
  - f_equal. apply map_ext. intros i. unfold Fp.merged.
    rewrite map_app, fold_left_app. reflexivity.
  - apply map_ext. intros i. unfold cluster_points.
    rewrite concat_app. cbn [concat]. rewrite app_nil_r.
    rewrite filter_app, length_app. trivial.
Qed.

Lemma Fp_worker_points (chunk : list nat) :
  (forall i, In i chunk -> i < n_cols (dataset self)) ->
  Fp.worker ar self centroids chunk =
  foldM step (map (point self) chunk) (acc []).
Proof.
  intros H. unfold Fp.worker. rewrite Fp_acc_of_nil.
  apply foldM_lookup. intros i Hi. unfold col, point.
  rewrite (nth_error_nth' _ ([] : vec) (H i Hi)). trivial.
Qed.

Lemma Fp_parallel_region_cons (chunk : list nat) (s : schedule)
  (sh : mat * list nat) :
  region (chunk :: s) sh =
  (sh' <- (local <- Fp.worker ar self centroids chunk ;;
           Fp.merge ar sh local) ;;
   region s sh').
Proof. reflexivity. Qed.

(** The parallel region, from shared accumulators that hold the sums of
    the workers [parts]. *)
Lemma Fp_parallel_region_shared_of (s : schedule) :
  (forall i, In i (concat s) -> i < n_cols (dataset self)) ->
  forall parts,
    (forallb accept (map (point self) (concat s)) = true ->
     region s (shared parts) =
     OK (shared (parts ++ map (map (point self)) s))) /\
    (forallb accept (map (point self) (concat s)) = false ->
     exists e, region s (shared parts) = Err e /\ loop_error e).
Proof.
  induction s as [|chunk s IH]; intros Hs parts.
  - simpl. rewrite app_nil_r. split; [trivial | discriminate].
  - rewrite Fp_parallel_region_cons. cbn [concat map].
    rewrite map_app, forallb_app.
    rewrite Fp_worker_points
      by (intros i Hi; apply Hs; simpl; apply in_or_app; left; trivial).
    destruct (Fp_foldM_assign_point (map (point self) chunk) [])
      as [Hok Hko]; [constructor|].
    destruct (forallb accept (map (point self) chunk)) eqn:Hchunk; simpl.
    + rewrite (Hok eq_refl). cbn [bind app].
      rewrite Fp_merge_shared_of. cbn [bind].
      replace (parts ++ map (point self) chunk :: map (map (point self)) s)
        with ((parts ++ [map (point self) chunk]) ++
              map (map (point self)) s)
        by (rewrite <- app_assoc; trivial).
      apply IH.
      intros i Hi; apply Hs; simpl; apply in_or_app; right; trivial.
    + split; [discriminate|]. intros _.
      destruct (Hko eq_refl) as (e & -> & He). simpl. eauto.
Qed.

Lemma Fp_normalize_prefix (d k : nat) (g : nat -> vec) (c : nat -> nat)
  (m : nat) :
  m <= k ->
  foldM (Fp.normalize_step ar (map c (seq 0 k))) (seq 0 m)
        (Mat d (map g (seq 0 k))) =
  OK (Mat d (map (fun j => if j <? m then Fp.normalized ar g c j else g j)
                 (seq 0 k))).
Proof.
  induction m as [|m IH]; intros Hm.
  - reflexivity.
  - rewrite seq_S, foldM_app, IH by lia. cbn [bind foldM Nat.add].
    unfold Fp.normalize_step.
    rewrite nth_error_map_seq by lia.
    destruct (Nat.eqb_spec (c m) 0) as [E | E]; cbn [bind].
    + do 2 f_equal. apply map_ext. intros j.
      destruct (Nat.ltb_spec j m), (Nat.ltb_spec j (S m)); trivial; try lia.
      assert (j = m) by lia; subst j. unfold Fp.normalized. rewrite E.
      trivial.
    + cbn [cols n_rows].
      rewrite (alter_at_map_seq _ _ (Fp.vec_div_assign ar (g m) (c m)) k m 0)
        by (trivial; cbn [Nat.add]; rewrite Nat.ltb_irrefl; trivial).
      cbn [bind]. do 2 f_equal. apply map_ext. intros j. cbn [Nat.add].
      destruct (Nat.eqb_spec j m) as [-> | Hj].
      * rewrite (proj2 (Nat.ltb_lt m (S m))) by lia.
        unfold Fp.normalized.
        destruct (Nat.eqb_spec (c m) 0); [lia | trivial].
      * destruct (Nat.ltb_spec j m), (Nat.ltb_spec j (S m)); trivial; lia.
Qed.

Lemma Fp_normalize_spec (d : nat) (g : nat -> vec) (c : nat -> nat) :
  Fp.normalize ar centroids (map c (seq 0 (n_cols centroids)))
               (Mat d (map g (seq 0 (n_cols centroids)))) =
  OK (Mat d (map (Fp.normalized ar g c) (seq 0 (n_cols centroids)))).
Proof.
  unfold Fp.normalize. rewrite Fp_normalize_prefix by lia.
  do 2 f_equal. apply map_ext_in. intros j Hj. apply in_seq in Hj.
  destruct (Nat.ltb_spec j (n_cols centroids)); [trivial | lia].
Qed.

Lemma Fp_distortion_sum_spec (d : nat) (h : nat -> vec) :
  Fp.distortion_sum ar self centroids
    (Mat d (map h (seq 0 (n_cols centroids)))) =
  OK (Fp.squared_displacements ar self centroids h).
Proof.
  unfold Fp.distortion_sum, Fp.squared_displacements.
  apply foldM_pure. intros cNorm i Hi. apply in_seq in Hi.
  unfold Fp.distortion_step, col. cbn [cols].
  rewrite (nth_error_nth' _ ([] : vec)) by (unfold n_cols in Hi; lia).
  rewrite nth_error_map_seq by lia. reflexivity.
Qed.

(** The shared accumulators when every worker has left. *)
Lemma Fp_shared_of_schedule (s : schedule) :
  schedule_ok s (n_cols (dataset self)) ->
  shared (map (map (point self)) s) =
  (Mat (n_rows centroids)
       (map (fun i => Fp.merged ar (n_rows centroids)
                        (Fp.cluster_parts self centroids s i))
            (seq 0 (n_cols centroids))),
   map (fun i => length (cluster i (cols (dataset self))))
       (seq 0 (n_cols centroids))).
Proof.
  intros Hs. destruct (schedule_ok_points self s Hs) as [_ Hp].
  unfold Fp.shared_of, Fp.cluster_parts. f_equal; [f_equal|].
  - apply map_ext. intros i. rewrite map_map. reflexivity.
  - apply map_ext. intros i. rewrite <- concat_map.
    apply Permutation_length, filter_perm. exact Hp.
Qed.

Lemma Fp_Iterate_spec (newCentroids : mat) (counts : list nat)
  (s : schedule) :
  schedule_ok s (n_cols (dataset self)) ->
  (forallb accept (cols (dataset self)) = true ->
   Fp.Iterate ar size_bits self centroids newCentroids counts s =
   OK (Fp.expected ar size_bits self centroids s)) /\
  (forallb accept (cols (dataset self)) = false ->
   exists e,
     Fp.Iterate ar size_bits self centroids newCentroids counts s = Err e /\
     loop_error e).
Proof.
  intros Hs. destruct (schedule_ok_points self s Hs) as [Hi Hp].
  unfold Fp.Iterate, mat_zeros, counts_zeros.
  rewrite <- Fp_shared_of_nil.
  destruct (Fp_parallel_region_shared_of s Hi []) as [Hok Hko].
  rewrite (forallb_perm accept _ _ Hp) in Hok, Hko.
  split; intros H.
  - rewrite (Hok H). cbn [bind app].
    rewrite (Fp_shared_of_schedule s Hs). cbn [fst snd].
    rewrite Fp_normalize_spec. cbn [bind].
    rewrite Fp_distortion_sum_spec. cbn [bind]. reflexivity.
  - destruct (Hko H) as (e & -> & He). simpl. eauto.
Qed.

Lemma Fp_Iterate_OK_inv (newCentroids : mat) (counts : list nat)
  (s : schedule) (r : IterateResult) :
  schedule_ok s (n_cols (dataset self)) ->
  Fp.Iterate ar size_bits self centroids newCentroids counts s = OK r ->
  forallb accept (cols (dataset self)) = true /\
  r = Fp.expected ar size_bits self centroids s.
Proof.
  intros Hs Hr.
  destruct (Fp_Iterate_spec newCentroids counts s Hs) as [Hok Hko].
  destruct (forallb accept (cols (dataset self))).
  - rewrite (Hok eq_refl) in Hr. injection Hr as <-. auto.
  - destruct (Hko eq_refl) as (e & He & _). congruence.
Qed.

(** The points of a cluster that the workers execute are the points of
    the cluster in the dataset. *)
Lemma cluster_parts_perm (s : schedule) (i : nat) :
  schedule_ok s (n_cols (dataset self)) ->
  Permutation (concat (Fp.cluster_parts self centroids s i))
              (cluster i (cols (dataset self))).
Proof.
  intros Hs. destruct (schedule_ok_points self s Hs) as [_ Hp].
  unfold Fp.cluster_parts.
  rewrite <- (map_map (map (point self)) (cluster i)).
  unfold cluster_points at 1. rewrite concat_filter_map.
  rewrite <- concat_map. apply filter_perm. exact Hp.
Qed.

End FpFacts.

(** On a valid input the iteration returns, whatever the arithmetic: at
    least one centroid, points of as many rows as the centroids, and
    distances that are neither not-a-number nor +infinity. *)
Lemma Fp_Iterate_returns (ar : Fp.arithmetic) (size_bits : N)
  (self : ParallelNaiveKMeans) (centroids : mat)
  (newCentroids : mat) (counts : list nat) (s : schedule) :
  schedule_ok s (n_cols (dataset self)) ->
  cols centroids <> [] ->
  (forall p, In p (cols (dataset self)) -> length p = n_rows centroids) ->
  (forall p c, In p (cols (dataset self)) -> In c (cols centroids) ->
     Evaluate (metric self) p c <> NaN /\
     Evaluate (metric self) p c <> PInf) ->
  Fp.Iterate ar size_bits self centroids newCentroids counts s =
  OK (Fp.expected ar size_bits self centroids s).
Proof.
  intros Hs HK Hrows Hm. apply Fp_Iterate_spec; trivial.
  apply valid_input_accepted; trivial.
Qed.

(** ** Sums under an addition that is associative and commutative *)

Section Additive.

Variable ar : Fp.arithmetic.
Hypothesis Hadd : Fp.additive ar.

Lemma Fp_vadd_comm (a b : vec) :
  map2 (Fp.add ar) a b = map2 (Fp.add ar) b a.
Proof.
  revert b; induction a as [|x a IH]; intros [|y b]; simpl; trivial.
  rewrite (Fp.plus_comm ar Hadd), IH; trivial.
Qed.

Lemma Fp_vadd_assoc (a b c : vec) :
  map2 (Fp.add ar) (map2 (Fp.add ar) a b) c =
  map2 (Fp.add ar) a (map2 (Fp.add ar) b c).
Proof.
  revert b c; induction a as [|x a IH]; intros [|y b] [|z c]; simpl; trivial.
  rewrite (Fp.plus_assoc ar Hadd), IH; trivial.
Qed.

Lemma Fp_vadd_zero_r (v : vec) :
  map2 (Fp.add ar) v (repeat Double.zero (length v)) = v.
Proof.
  rewrite Fp_vadd_comm.
  induction v as [|x v IH]; trivial.
  cbn [length repeat map2].
  rewrite (Fp.plus_zero_l ar Hadd), IH; trivial.
Qed.

Lemma Fp_fold_vadd_shift (l : list vec) (a b : vec) :
  fold_left (map2 (Fp.add ar)) l (map2 (Fp.add ar) a b) =
  map2 (Fp.add ar) a (fold_left (map2 (Fp.add ar)) l b).
Proof.
  revert a b; induction l as [|p l IH]; intros a b; simpl; trivial.
  rewrite Fp_vadd_assoc. apply IH.
Qed.

Lemma Fp_vsum_perm (d : nat) (a b : list vec) :
  Permutation a b -> Fp.vsum ar d a = Fp.vsum ar d b.
Proof.
  intros H. unfold Fp.vsum. generalize (repeat Double.zero d).
  induction H as [|x l l' _ IH|x y l|l l' l'' _ IH1 _ IH2]; intros z; simpl.
  - trivial.
  - apply IH.
  - f_equal. rewrite !Fp_vadd_assoc. f_equal. apply Fp_vadd_comm.
  - rewrite IH1. apply IH2.
Qed.

Lemma Fp_vsum_app (d : nat) (a b : list vec) :
  Forall (fun p => length p = d) a ->
  Fp.vsum ar d (a ++ b) =
  map2 (Fp.add ar) (Fp.vsum ar d a) (Fp.vsum ar d b).
Proof.
  intros Ha.
  pose proof (Fp_vadd_zero_r (Fp.vsum ar d a)) as E.
  rewrite (Fp_vsum_length ar _ _ Ha) in E.
  unfold Fp.vsum at 1. rewrite fold_left_app.
  transitivity (fold_left (map2 (Fp.add ar)) b
                  (map2 (Fp.add ar) (Fp.vsum ar d a)
                        (repeat Double.zero d))).
  - f_equal. symmetry. exact E.
  - apply Fp_fold_vadd_shift.
Qed.

(** The sum the critical section leaves is then the sum of all the
    points, in one go. *)
Lemma Fp_merged_concat (d : nat) (parts : list (list vec)) :
  Forall (fun p => length p = d) (concat parts) ->
  Fp.merged ar d parts = Fp.vsum ar d (concat parts).
Proof.
  unfold Fp.merged.
  change (repeat Double.zero d) with (Fp.vsum ar d []).
  change (concat parts) with ([] ++ concat parts).
  assert (Hpre : Forall (fun p : vec => length p = d) []) by constructor.
  revert Hpre. generalize (@nil vec).
  induction parts as [|part parts IH]; intros pre Hpre H; simpl.
  - rewrite app_nil_r. trivial.
  - simpl in H. apply Forall_app in H as [_ H].
    apply Forall_app in H as [Hpart Hparts].
    rewrite <- (Fp_vsum_app d pre part Hpre), app_assoc.
    apply IH.
    + apply Forall_app. split; trivial.
    + apply Forall_app. split; trivial.
      apply Forall_app. split; trivial.
Qed.

End Additive.

(** ** Sums of squares under the laws of IEEE 754 *)

Section Ieee.

Variable ar : Fp.arithmetic.
Hypothesis Hieee : Fp.ieee ar.

Lemma Fp_sum_ok_fold (f : nat -> double) (l : list nat) :
  forall a, sum_ok a ->
    let total :=
      fold_left (fun c i => Fp.add ar c (Fp.pow2 ar (f i))) l a in
    sum_ok total /\
    (total = Double.zero <->
     a = Double.zero /\ forall i, In i l -> Fp.pow2 ar (f i) = Double.zero) /\
    (a <> NaN -> (forall i, In i l -> f i <> NaN) -> total <> NaN).
Proof.
  induction l as [|i l IH]; intros a Ha; simpl.
  - repeat split; trivial; tauto.
  - pose proof (Fp.pow2_ok ar Hieee (f i)) as Hp.
    pose proof (Fp.plus_ok ar Hieee _ _ Ha Hp) as H1.
    pose proof (Fp.plus_zero ar Hieee _ _ Ha Hp) as H2.
    destruct (IH _ H1) as (I1 & I2 & I3).
    split; [trivial | split].
    + rewrite I2, H2. split.
      * intros [[? ?] ?]. split; trivial. intros j [<- | Hj]; auto.
      * intros [? H]. repeat split; auto.
    + intros Hn Hf. apply I3; [|auto].
      intros E. apply (Fp.plus_nan ar Hieee _ _ Ha Hp) in E as [E | E].
      * contradiction.
      * apply (Fp.pow2_nan ar Hieee) in E. apply (Hf i); auto.
Qed.

End Ieee.

(** ** The exact arithmetic and the range of binary64 *)

Lemma exact_additive : Fp.additive Fp.exact.
Proof.
  constructor; intros.
  - apply DoubleFacts.add_assoc.
  - apply DoubleFacts.add_comm.
  - apply DoubleFacts.add_zero_l.
Qed.

Lemma exact_ieee : Fp.ieee Fp.exact.
Proof.
  constructor; cbn [Fp.add Fp.pow2 Fp.sqrt Fp.exact].
  - intros [x| | |] [y| | |]; simpl; trivial; try contradiction. lra.
  - unfold Double.zero.
    intros [x| | |] [y| | |]; simpl; intros Ha Hb; try contradiction;
      (split; [intros H | intros [H1 H2]]); try discriminate.
    + injection H as H. split; f_equal; lra.
    + injection H1 as ->. injection H2 as ->. f_equal. lra.
  - intros [x| | |] [y| | |]; simpl; intros Ha Hb H; try contradiction;
      try discriminate; auto.
  - intros [x| | |]; simpl; trivial. nra.
  - simpl. unfold Double.zero. f_equal. lra.
  - intros [x| | |]; simpl; intros H; try discriminate; trivial.
  - intros a Ha. apply sqrt_sum_ok; trivial.
  - intros [x| | |] Ha H; trivial; simpl in *; try contradiction;
      try discriminate.
    destruct (Rlt_dec x 0); [exfalso; lra | discriminate].
  - apply sqrt_not_negative.
Qed.

(** In the exact arithmetic no square underflows. *)
Lemma exact_pow2_zero (x : double) :
  Fp.pow2 Fp.exact x = Double.zero -> x = Double.zero.
Proof.
  unfold Double.zero. destruct x as [x| | |]; simpl; intros H;
    try discriminate.
  injection H as H. f_equal. nra.
Qed.

Lemma huge_gt_1 : (1 < Fp.huge)%R.
Proof.
  unfold Fp.huge. apply Rlt_pow_R1; [lra | lia].
Qed.

Lemma tiny_bounds :
  (0 < / 2 ^ 1075 < Fp.tiny /\ Fp.tiny < 1 /\
   Fp.tiny * Fp.tiny < / 2 ^ 1075)%R.
Proof.
  unfold Fp.tiny.
  assert (H2 : forall n, (0 < 2 ^ n)%R) by (intros n; apply pow_lt; lra).
  assert (Hlt : forall n m, n < m -> (/ 2 ^ m < / 2 ^ n)%R).
  { intros n m Hnm. apply Rinv_lt_contravar.
    - apply Rmult_lt_0_compat; apply H2.
    - apply Rlt_pow; [lra | trivial]. }
  repeat split.
  - apply Rinv_0_lt_compat, H2.
  - apply Hlt. lia.
  - assert (E : (/ 2 ^ 0 = 1)%R) by (simpl; apply Rinv_1).
    rewrite <- E. apply Hlt. lia.
  - rewrite <- Rinv_mult, <- pow_add. apply Hlt. lia.
Qed.

Lemma binary64_ieee : Fp.ieee Fp.binary64.
Proof.
  pose proof huge_gt_1 as Hh.
  destruct tiny_bounds as ([Hu _] & _).
  constructor; cbn [Fp.add Fp.pow2 Fp.sqrt Fp.binary64].
  - intros [x| | |] [y| | |]; simpl; trivial; try contradiction.
    intros Hx Hy. unfold Fp.overflow.
    destruct (Rle_dec _ _); simpl; trivial.
    destruct (Rle_dec _ _); simpl; lra.
  - unfold Double.zero.
    intros [x| | |] [y| | |]; simpl; intros Ha Hb; try contradiction;
      (split; [intros H | intros [H1 H2]]); try discriminate.
    + unfold Fp.overflow in H.
      destruct (Rle_dec _ _); [discriminate|].
      destruct (Rle_dec _ _); [discriminate|].
      injection H as H. split; f_equal; lra.
    + injection H1 as ->. injection H2 as ->. unfold Fp.overflow.
      destruct (Rle_dec _ _); [lra|].
      destruct (Rle_dec _ _); [lra|]. f_equal. lra.
  - intros [x| | |] [y| | |]; simpl; intros Ha Hb H; try contradiction;
      try discriminate; auto.
    unfold Fp.overflow in H.
    destruct (Rle_dec _ _); [discriminate|].
    destruct (Rle_dec _ _); discriminate.
  - intros [x| | |]; simpl; trivial.
    unfold Fp.underflow, Fp.overflow.
    destruct (Rle_dec _ _); simpl; trivial.
    destruct (Rle_dec _ _); simpl; [nra|].
    destruct (Rlt_dec _ _); simpl; nra.
  - simpl. unfold Fp.underflow, Fp.overflow.
    destruct (Rle_dec _ _); [lra|].
    destruct (Rle_dec _ _); [lra|].
    destruct (Rlt_dec _ _); unfold Double.zero; f_equal; lra.
  - intros [x| | |]; simpl; intros H; try discriminate; trivial.
    unfold Fp.underflow, Fp.overflow in H.
    destruct (Rle_dec _ _); [discriminate|].
    destruct (Rle_dec _ _); [discriminate|].
    destruct (Rlt_dec _ _); discriminate.
  - intros a Ha. apply sqrt_sum_ok; trivial.
  - intros [x| | |] Ha H; trivial; simpl in *; try contradiction;
      try discriminate.
    destruct (Rlt_dec x 0); [exfalso; lra | discriminate].
  - apply sqrt_not_negative.
Qed.

(** * The claims on sums and squares *)

(** Runs the program in the range of binary64. *)
Ltac fp_run :=
  cbv [Fp.Iterate Fp.parallel_region Fp.worker Fp.merge Fp.assign_point
       Fp.vec_plus_assign Fp.mat_plus_assign Fp.vec_div_assign Fp.normalize
       Fp.normalize_step Fp.distortion_sum Fp.distortion_step
       Fp.add Fp.div_count Fp.pow2 Fp.sqrt Fp.binary64 Fp.overflow
       Fp.underflow
       foldM bind col Log_Assert negb
       closest_cluster scan alter_at counts_plus_assign
       mat_zeros counts_zeros zeros_mat n_cols n_rows cols
       dataset metric distanceCalculations new_ParallelNaiveKMeans
       map2 map repeat seq nth_error nth length Nat.eqb Nat.ltb Nat.leb
       Nat.add r_self r_newCentroids r_counts r_distortion
       andb fst snd fold_left
       Double.lt Double.add Double.sub Double.abs Double.pow2 Double.zero
       Double.sqrt Evaluate
       Scenario.manhattan Scenario.v1 Scenario.centroids4 Scenario.buffer
       Edge.dataset_huge Edge.kmeans_huge Edge.dataset_tiny Edge.kmeans_tiny
       Edge.result_huge Edge.result_tiny].

Ltac fp_close :=
  simpl INR in *; unfold Rabs in *; repeat destruct Rcase_abs; nra.

(** Decides the comparisons the evaluation is stuck on, from the bounds in
    the context. *)
Ltac fp_decide :=
  repeat (match goal with
          | |- context [Rle_dec ?a ?b] =>
              destruct (Rle_dec a b);
              [ try (exfalso; fp_close) | try (exfalso; fp_close) ]
          | |- context [Rlt_dec ?a ?b] =>
              destruct (Rlt_dec a b);
              [ try (exfalso; fp_close) | try (exfalso; fp_close) ]
          end; fp_run).

Lemma scenario_huge_run :
  Fp.Iterate Fp.binary64 64 Edge.kmeans_huge Scenario.centroids4
             Scenario.buffer [] [[0; 1]] = OK Edge.result_huge.
Proof.
  pose proof huge_gt_1 as Hh.
  fp_run. fp_decide. reflexivity.
Qed.

Lemma scenario_tiny_run :
  Fp.Iterate Fp.binary64 64 Edge.kmeans_tiny Scenario.centroids4
             Scenario.buffer [] [[0]] = OK Edge.result_tiny.
Proof.
  pose proof huge_gt_1 as Hh.
  destruct tiny_bounds as ([Hu Hl] & Ht & Hq).
  fp_run. set (u := (/ 2 ^ 1075)%R) in *. clearbody u.
  fp_decide.
  apply IterateResult_eq; try reflexivity.
  - do 3 f_equal. apply f_equal. simpl INR. lra.
  - f_equal. replace (0 + 0)%R with 0%R by lra. apply sqrt_0.
Qed.

(** C1, as the code has it.  When [Iterate] returns, the count of a
    cluster is the number of the points of the dataset that the scan sends
    to this cluster, and the column of a cluster that has a point is the sum
    of exactly these points divided by their number, the sum and the
    quotient being those of the arithmetic: every worker adds its points to
    zero in the order it executes them, and the sums of the workers are added
    to zero in the order the workers enter the critical section.  Under an
    addition that is associative and commutative, as the exact one is, the
    column is the sum of the points of the cluster in the order of the
    dataset, divided by their number: the arithmetic mean. *)
Theorem Iterate_mean_of_cluster (ar : Fp.arithmetic) (size_bits : N)
  (self : ParallelNaiveKMeans) (centroids : mat)
  (newCentroids : mat) (counts : list nat) (s : schedule) (r : IterateResult)
  (i : nat) :
  schedule_ok s (n_cols (dataset self)) ->
  Fp.Iterate ar size_bits self centroids newCentroids counts s = OK r ->
  i < n_cols centroids ->
  0 < nth i (r_counts r) 0 ->
  let ps := cluster_points self centroids i (cols (dataset self)) in
  let parts := Fp.cluster_parts self centroids s i in
  nth i (r_counts r) 0 = length ps /\
  Permutation (concat parts) ps /\
  nth_error (cols (r_newCentroids r)) i =
    Some (Fp.vec_div_assign ar
            (Fp.merged ar (n_rows centroids) parts) (length ps)) /\
  (Fp.additive ar ->
   nth_error (cols (r_newCentroids r)) i =
     Some (Fp.vec_div_assign ar
             (Fp.vsum ar (n_rows centroids) ps) (length ps))).
Proof.
  intros Hs Hr Hi Hc ps parts.
  destruct (Fp_Iterate_OK_inv ar size_bits self centroids _ _ _ r Hs Hr)
    as [Hacc ->].
  cbn [Fp.expected r_counts r_newCentroids cols] in *.
  rewrite nth_map_seq in * by trivial. fold ps in Hc |- *.
  pose proof (cluster_parts_perm self centroids s i Hs) as Hperm.
  fold ps parts in Hperm.
  assert (Hcol : nth_error (map (Fp.new_centroid ar self centroids s)
                              (seq 0 (n_cols centroids))) i =
                 Some (Fp.vec_div_assign ar
                         (Fp.merged ar (n_rows centroids) parts)
                         (length ps))).
  { rewrite nth_error_map_seq by trivial.
    unfold Fp.new_centroid, Fp.normalized. fold ps parts.
    destruct (Nat.eqb_spec (length ps) 0); [lia | trivial]. }
  split; [trivial|]. split; [trivial|]. split; [trivial|].
  intros Hadd. rewrite Hcol. do 2 f_equal.
  assert (Hps : Forall (fun p : vec => length p = n_rows centroids) ps).
  { apply cluster_points_rows. apply (accepted_rows self centroids); trivial. }
  rewrite (Fp_merged_concat ar Hadd).
  - apply Fp_vsum_perm; trivial.
  - apply (Permutation_Forall (Permutation_sym Hperm)); trivial.
Qed.

Lemma Iterate_mean_of_cluster_witness :
  nth 0 (r_counts Scenario.result1) 0 =
    length (cluster_points Scenario.kmeans1 Scenario.centroids1 0
              (cols (dataset Scenario.kmeans1))) /\
  nth_error (cols (r_newCentroids Scenario.result1)) 0 =
    Some (Fp.vec_div_assign Fp.exact
            (Fp.merged Fp.exact (n_rows Scenario.centroids1)
               (Fp.cluster_parts Scenario.kmeans1 Scenario.centroids1
                  Scenario.two_workers 0))
            (length (cluster_points Scenario.kmeans1 Scenario.centroids1 0
                       (cols (dataset Scenario.kmeans1))))) /\
  nth_error (cols (r_newCentroids Scenario.result1)) 0 =
    Some (vmean (n_rows Scenario.centroids1)
            (cluster_points Scenario.kmeans1 Scenario.centroids1 0
               (cols (dataset Scenario.kmeans1)))).
Proof.
  destruct (Iterate_mean_of_cluster Fp.exact 64 Scenario.kmeans1
              Scenario.centroids1 Scenario.buffer [] Scenario.two_workers
              Scenario.result1 0 two_workers_ok scenario1_run)
    as (A & _ & C & D).
  - run. lia.
  - run. lia.
  - split; [exact A|]. split; [exact C|]. exact (D exact_additive).
Defined.

(** The claim C1 fails on a machine: with one centroid 0 and two points
    2^1023, the arithmetic mean of the cluster is 2^1023, a double, and the
    column that [Iterate] returns is +infinity, the sum having overflowed. *)
Lemma mean_overflows :
  Fp.Iterate Fp.binary64 64 Edge.kmeans_huge Scenario.centroids4
             Scenario.buffer [] [[0; 1]] = OK Edge.result_huge /\
  nth 0 (r_counts Edge.result_huge) 0 = 2 /\
  nth_error (cols (r_newCentroids Edge.result_huge)) 0 = Some [PInf] /\
  vmean 1 (cluster_points Edge.kmeans_huge Scenario.centroids4 0
             (cols (dataset Edge.kmeans_huge))) = [Fin Fp.huge].
Proof.
  split; [exact scenario_huge_run|].
  split; [reflexivity|]. split; [reflexivity|].
  cbv [vmean vsum vec_div_assign cluster_points filter assigned
       closest_cluster scan n_cols cols dataset metric length
       new_ParallelNaiveKMeans Nat.eqb fold_left map map2 repeat fst snd
       Double.lt Double.add Double.sub Double.abs Double.zero
       Double.div_count Evaluate
       Scenario.manhattan Scenario.v1 Scenario.centroids4
       Edge.dataset_huge Edge.kmeans_huge].
  do 2 f_equal. simpl INR. lra.
Qed.

(** C2, as the code has it.  The scalar that [Iterate] returns is the
    square root of the sum of the squared distances between each centroid
    and its new position, with the sum, the squares and the root of the
    arithmetic.  In every arithmetic that has the laws of IEEE 754, it is
    never below 0; it is at least 0 when none of these distances is
    not-a-number; and it is 0 exactly when the square of each of these
    distances is 0.  When, besides, each of these distances is 0 exactly
    for a centroid equal to its new position, and none of them has a square
    that is 0 without being 0 itself, the scalar is 0 exactly when no
    centroid moved. *)
Theorem Iterate_distortion (ar : Fp.arithmetic) (size_bits : N)
  (self : ParallelNaiveKMeans) (centroids : mat)
  (newCentroids : mat) (counts : list nat) (s : schedule) (r : IterateResult) :
  Fp.ieee ar ->
  schedule_ok s (n_cols (dataset self)) ->
  Fp.Iterate ar size_bits self centroids newCentroids counts s = OK r ->
  let old := fun i => nth i (cols centroids) ([] : vec) in
  let new := fun i => nth i (cols (r_newCentroids r)) ([] : vec) in
  let moved := fun i => Evaluate (metric self) (old i) (new i) in
  r_distortion r =
    Fp.sqrt ar
      (fold_left
         (fun cNorm i => Fp.add ar cNorm (Fp.pow2 ar (moved i)))
         (seq 0 (n_cols centroids)) Double.zero) /\
  Double.lt (r_distortion r) Double.zero = false /\
  ((forall i, i < n_cols centroids -> moved i <> NaN) ->
   Double.le Double.zero (r_distortion r)) /\
  (r_distortion r = Double.zero <->
   forall i, i < n_cols centroids -> Fp.pow2 ar (moved i) = Double.zero) /\
  ((forall i, i < n_cols centroids ->
      (moved i = Double.zero <-> old i = new i)) ->
   (forall i, i < n_cols centroids ->
      Fp.pow2 ar (moved i) = Double.zero -> moved i = Double.zero) ->
   (r_distortion r = Double.zero <-> r_newCentroids r = centroids)).
Proof.
  intros Hieee Hs Hr old new moved.
  destruct (Fp_Iterate_OK_inv ar size_bits self centroids _ _ _ r Hs Hr)
    as [_ E].
  assert (Hshape : n_rows (r_newCentroids r) = n_rows centroids /\
                   length (cols (r_newCentroids r)) = n_cols centroids).
  { rewrite E. cbn [Fp.expected r_newCentroids n_rows cols].
    rewrite length_map, length_seq. auto. }
  set (total := fold_left
                  (fun cNorm i => Fp.add ar cNorm (Fp.pow2 ar (moved i)))
                  (seq 0 (n_cols centroids)) Double.zero).
  assert (Hdist : r_distortion r = Fp.sqrt ar total).
  { unfold total, moved, new. rewrite E.
    cbn [Fp.expected r_distortion r_newCentroids cols].
    unfold Fp.squared_displacements. f_equal.
    apply fold_left_ext_in. intros a i Hi. apply in_seq in Hi.
    rewrite nth_map_seq by lia. reflexivity. }
  clear E.
  assert (Hz : sum_ok Double.zero) by (simpl; lra).
  destruct (Fp_sum_ok_fold ar Hieee moved (seq 0 (n_cols centroids)) _ Hz)
    as (H1 & H2 & H3).
  fold total in H1, H2, H3.
  assert (Hzero : Fp.sqrt ar total = Double.zero <->
                  forall i, i < n_cols centroids ->
                            Fp.pow2 ar (moved i) = Double.zero).
  { rewrite (Fp.sqrt_zero ar Hieee _ H1), H2. split.
    - intros [_ H] i Hi. apply H, in_seq. lia.
    - intros H. split; trivial. intros i Hi. apply in_seq in Hi.
      apply H. lia. }
  rewrite Hdist.
  split; [trivial|]. split; [apply (Fp.sqrt_sign ar Hieee)|].
  split; [|split; [exact Hzero|]].
  - intros Hm. unfold Double.le.
    split; [apply (Fp.sqrt_sign ar Hieee)|]. split; [discriminate|].
    intros E. apply (Fp.sqrt_nan ar Hieee _ H1) in E. revert E.
    apply H3; [discriminate|].
    intros i Hi. apply in_seq in Hi. apply Hm. lia.
  - intros Hsep Hund. rewrite Hzero. split.
    + intros H. destruct Hshape as [Hrows Hcols].
      destruct (r_newCentroids r) as [d cs] eqn:Enc.
      destruct centroids as [d0 cs0]. cbn [n_rows cols n_cols] in *.
      f_equal; trivial.
      apply (nth_ext _ _ ([] : vec) ([] : vec)); trivial.
      intros i Hi. symmetry. apply Hsep; [lia|]. apply Hund; [lia|].
      apply H. lia.
    + intros E i Hi.
      replace (moved i) with Double.zero;
        [apply (Fp.pow2_zero ar Hieee)|].
      symmetry. apply Hsep; trivial. unfold old, new. rewrite E. trivial.
Qed.

Lemma Iterate_distortion_witness :
  r_distortion Scenario.result1 =
    Fp.sqrt Fp.exact
      (fold_left
         (fun cNorm i =>
            Fp.add Fp.exact cNorm
              (Fp.pow2 Fp.exact
                 (Evaluate Scenario.manhattan
                    (nth i (cols Scenario.centroids1) [])
                    (nth i (cols (r_newCentroids Scenario.result1)) []))))
         (seq 0 (n_cols Scenario.centroids1)) Double.zero) /\
  Double.le Double.zero (r_distortion Scenario.result1) /\
  (r_distortion Scenario.result1 = Double.zero <->
   r_newCentroids Scenario.result1 = Scenario.centroids1).
Proof.
  destruct (Iterate_distortion Fp.exact 64 Scenario.kmeans1
              Scenario.centroids1 Scenario.buffer [] Scenario.two_workers
              Scenario.result1 exact_ieee two_workers_ok scenario1_run)
    as (A & _ & C & _ & D).
  split; [exact A | split; [apply C | apply D]].
  - intros [|[|i]] Hi; [run; discriminate | run; discriminate |].
    unfold n_cols in Hi. simpl in Hi. lia.
  - intros [|[|i]] Hi; [| |unfold n_cols in Hi; simpl in Hi; lia]; run;
      split; intros H; exfalso; injection H as H; clear - H; r_close.
  - intros i _. apply exact_pow2_zero.
Defined.

(** The claim C2 fails for a distance that is 0 between different
    vectors: under the distance on the first coordinate, the centroid
    (0, 0) moves to the point (0, 1) and the distortion is 0. *)
Lemma distortion_zero_after_move :
  Iterate 64 Scenario.kmeans3 Scenario.centroids3 Scenario.buffer [] [[0]] =
    OK Scenario.result3 /\
  r_distortion Scenario.result3 = Double.zero /\
  r_newCentroids Scenario.result3 <> Scenario.centroids3.
Proof.
  split; [exact scenario3_run | split].
  - run. rewrite sqrt_0. reflexivity.
  - run. intros H. injection H as H. lra.
Qed.

(** On a machine the scalar is 0 for centroids that moved, under a
    distance that separates them: with one point 2^-600 and one centroid
    0, the centroid moves to 2^-600, at the Manhattan distance 2^-600, and
    the square of this distance underflows to 0. *)
Lemma distortion_zero_by_underflow :
  Fp.Iterate Fp.binary64 64 Edge.kmeans_tiny Scenario.centroids4
             Scenario.buffer [] [[0]] = OK Edge.result_tiny /\
  r_distortion Edge.result_tiny = Double.zero /\
  r_newCentroids Edge.result_tiny <> Scenario.centroids4 /\
  Evaluate Scenario.manhattan (Scenario.v1 0) [Fin Fp.tiny] <> Double.zero.
Proof.
  destruct tiny_bounds as ([Hu Hl] & Ht & _).
  split; [exact scenario_tiny_run|]. split; [reflexivity|]. split.
  - intros H. injection H as H. lra.
  - cbv [Evaluate Scenario.manhattan Scenario.v1 map2 fold_left
         Double.add Double.sub Double.abs Double.zero].
    intros H. injection H as H. revert H.
    unfold Rabs. destruct Rcase_abs; lra.
Qed.
